(** * Annotation hierarchy traversal and flattening

    A shallow embedding of the tree resolvers of
    [config/graphql/graphene_types.py]:

    - [build_flat_tree], the flattener;
    - [AnnotationType.resolve_descendants_tree],
      [AnnotationType.resolve_full_tree] and
      [AnnotationType.resolve_subtree], the three traversal modes.

    The [Annotation] table is a list of rows restricted to the three columns
    the resolvers select with [.values("id", "parent_id", "raw_text")].  The
    recursive common table expressions the resolvers build with
    [django_cte.With.recursive] are evaluated the way SQL evaluates
    [WITH RECURSIVE ... UNION ALL]: the seed rows first, then the rows joined
    to the rows of the previous round, until a round is empty. *)

From Stdlib Require Import ZArith String Ascii List Sorting.Sorted.
From Stdlib Require Import Decimal DecimalString DecimalPos DecimalZ.
From stdpp Require Import base option list gmap sorting.

Local Open Scope string_scope.
Local Open Scope Z_scope.
Local Open Scope list_scope.

(** ** Data model *)

(** A row of [Annotation.objects....values("id", "parent_id", "raw_text")]:
    a Python dict with the keys [id], [parent_id] and [raw_text].  The
    primary key is an integer, [parent_id] is the nullable foreign key of the
    self-referential [parent] field. *)
Record RawNode := {
  node_id : Z;
  parent_id : option Z;
  raw_text : string;
}.

Global Instance RawNode_eq_dec : EqDecision RawNode.
Proof. solve_decision. Defined.

(** An entry of the list [build_flat_tree] returns: a dict with the keys
    [id], [raw_text] and [children]. *)
Record AnnotationNode := {
  node_id_global : string;
  node_raw_text : string;
  children : list string;
}.

Global Instance AnnotationNode_eq_dec : EqDecision AnnotationNode.
Proof. solve_decision. Defined.

(** ** Outcomes of the resolvers

    A resolver returns its list, raises (the only exception the modelled
    paths can raise is [Annotation.DoesNotExist], from following a dangling
    [parent] reference), or keeps looping; the latter shows as [OutOfFuel]. *)
Inductive error := DoesNotExist.

Inductive outcome (A : Type) :=
  | Done (a : A)
  | Raised (e : error)
  | OutOfFuel.
Arguments Done {A} a.
Arguments Raised {A} e.
Arguments OutOfFuel {A}.

Global Instance outcome_ret : MRet outcome := λ A a, Done a.
Global Instance outcome_bind : MBind outcome := λ A B f o,
  match o with
  | Done a => f a
  | Raised e => Raised e
  | OutOfFuel => OutOfFuel
  end.
Global Instance outcome_fmap : FMap outcome := λ A B f o,
  match o with
  | Done a => Done (f a)
  | Raised e => Raised e
  | OutOfFuel => OutOfFuel
  end.

(** ** Identifier codec *)

Module Codec.

(** Modelled from the spec: the result of [decode], the pair or the
    [MalformedIdentifier] failure. *)
Inductive decoded :=
  | Decoded (type_tag : string) (internal_id : Z)
  | MalformedIdentifier.

(** Modelled from the spec: the text of an internal id inside an external
    id, as Python's [str] prints an integer: decimal digits, ["-"] in front
    of a negative number. *)
Definition str (internal_id : Z) : string :=
  NilZero.string_of_int (Z.to_int internal_id).

(** Modelled from the spec: the identifier codec.  The resolvers call
    [to_global_id] and [from_global_id] of the third-party package
    [graphql_relay], whose code is not part of the sources.  The spec
    describes [encode(type_tag, internal_id)] as a pure function whose
    result embeds the type tag and from which [decode] recovers both
    parts.  The external identifier here is the type tag, a colon and the
    decimal internal id; the opaque transport encoding the package wraps
    around this text is left out. *)
Definition to_global_id (type_tag : string) (internal_id : Z) : string :=
  (type_tag ++ ":" ++ str internal_id)%string.

(** Modelled from the spec: the two parts of an external id, the text
    before and the text after the last colon of [s]. *)
Fixpoint rsplit_colon (s : string) : option (string * string) :=
  match s with
  | EmptyString => None
  | String c rest =>
      match rsplit_colon rest with
      | Some (type_tag, digits) => Some (String c type_tag, digits)
      | None => if Ascii.eqb c ":" then Some (EmptyString, rest) else None
      end
  end.

(** Modelled from the spec: [decode], the inverse of [encode]; it fails
    with [MalformedIdentifier] when the external id does not have the
    codec's format (no colon, or no integer after it). *)
Definition from_global_id (external_id : string) : decoded :=
  match rsplit_colon external_id with
  | Some (type_tag, digits) =>
      match NilZero.int_of_string digits with
      | Some d => Decoded type_tag (Z.of_int d)
      | None => MalformedIdentifier
      end
  | None => MalformedIdentifier
  end.

(** Modelled from the spec: [decode] with an expected tag supplied by the
    caller; an embedded tag that differs is a [MalformedIdentifier]. *)
Definition from_global_id_expecting (expected : string) (external_id : string)
  : decoded :=
  match from_global_id external_id with
  | Decoded type_tag internal_id =>
      if String.eqb type_tag expected then Decoded type_tag internal_id
      else MalformedIdentifier
  | MalformedIdentifier => MalformedIdentifier
  end.

End Codec.

Import Codec.

(** ** The flattener, [build_flat_tree] *)

(** One round of the first loop: [if parent_id:] is false for [None] and for
    [0]; otherwise
    [id_to_children.setdefault(parent_id, []).append(node_id)]. *)
Definition record_child (id_to_children : gmap Z (list Z)) (node : RawNode)
  : gmap Z (list Z) :=
  match parent_id node with
  | Some p =>
      if decide (p = 0) then id_to_children
      else <[p := default [] (id_to_children !! p) ++ [node_id node]]> id_to_children
  | None => id_to_children
  end.

Definition id_to_children (nodes : list RawNode) : gmap Z (list Z) :=
  foldl record_child ∅ nodes.

(** The body of the second loop, given the finished map. *)
Definition node_dict (id_to_children : gmap Z (list Z)) (node : RawNode)
  : AnnotationNode :=
  let children_ids := default [] (id_to_children !! node_id node) in
  {| node_id_global := to_global_id "AnnotationType" (node_id node);
     node_raw_text := raw_text node;
     children := to_global_id "AnnotationType" <$> children_ids |}.

Definition build_flat_tree (nodes : list RawNode) : list AnnotationNode :=
  node_dict (id_to_children nodes) <$> nodes.

(** ** The [Annotation] table and the queries the resolvers issue *)

(** [Annotation.objects.filter(parent_id=pk)] *)
Definition filter_parent_id (table : list RawNode) (pk : Z) : list RawNode :=
  filter (λ row, parent_id row = Some pk) table.

(** [Annotation.objects.filter(id=pk)] *)
Definition filter_id (table : list RawNode) (pk : Z) : list RawNode :=
  filter (λ row, node_id row = pk) table.

(** [Annotation.objects.filter(id__in=pks)] *)
Definition filter_id_in (table : list RawNode) (pks : list Z) : list RawNode :=
  filter (λ row, node_id row ∈ pks) table.

(** [node.parent] on a node whose [parent_id] is [pk]: the related row is
    fetched by primary key, and [Annotation.DoesNotExist] is raised when the
    table has no such row. *)
Definition get (table : list RawNode) (pk : Z) : outcome RawNode :=
  match filter_id table pk with
  | row :: _ => Done row
  | [] => Raised DoesNotExist
  end.

(** The recursive term of the three table expressions,
    [cte.join(Annotation, parent_id=cte.col.id)]: the rows of the table whose
    parent is a row of the previous round. *)
Definition join_children (table working : list RawNode) : list RawNode :=
  working ≫= (λ w, filter_parent_id table (node_id w)).
Arguments join_children : simpl never.

(** [With.recursive(make_cte)] where [make_cte] returns
    [base_qs.union(recursive_qs, all=True)]: [working] starts as the rows of
    [base_qs]; every round appends the rows joined to the previous round and
    the evaluation stops at the first empty round.  [fuel] bounds the number
    of non-empty rounds. *)
Fixpoint with_recursive (fuel : nat) (table working : list RawNode)
  {struct fuel} : outcome (list RawNode) :=
  match working with
  | [] => Done []
  | _ :: _ =>
      match fuel with
      | O => OutOfFuel
      | S fuel' =>
          (working ++.) <$> with_recursive fuel' table (join_children table working)
      end
  end.

(** [.order_by("id")] *)
Definition id_le (a b : RawNode) : Prop := node_id a ≤ node_id b.

Global Instance id_le_dec : RelDecision id_le.
Proof. intros a b. unfold id_le. apply _. Defined.

Definition order_by_id (rows : list RawNode) : list RawNode :=
  merge_sort id_le rows.

(** ** The three resolvers

    [self] is the annotation the field is resolved on, a row already in
    memory.  [fuel] bounds the iterations of each loop of the resolver. *)

(** [list(descendants_qs)] in [resolve_descendants_tree]. *)
Definition descendants_list (fuel : nat) (table : list RawNode) (self : RawNode)
  : outcome (list RawNode) :=
  order_by_id <$> with_recursive fuel table (filter_parent_id table (node_id self)).

Definition resolve_descendants_tree (fuel : nat) (table : list RawNode)
  (self : RawNode) : outcome (list AnnotationNode) :=
  build_flat_tree <$> descendants_list fuel table self.

(** [while root.parent_id is not None: root = root.parent] *)
Fixpoint root_ancestor (fuel : nat) (table : list RawNode) (root : RawNode)
  {struct fuel} : outcome RawNode :=
  match parent_id root with
  | None => Done root
  | Some pk =>
      match fuel with
      | O => OutOfFuel
      | S fuel' => get table pk ≫= root_ancestor fuel' table
      end
  end.

(** [list(full_tree_qs)] in [resolve_full_tree]. *)
Definition full_tree_list (fuel : nat) (table : list RawNode) (self : RawNode)
  : outcome (list RawNode) :=
  root ← root_ancestor fuel table self;
  order_by_id <$> with_recursive fuel table (filter_id table (node_id root)).

Definition resolve_full_tree (fuel : nat) (table : list RawNode)
  (self : RawNode) : outcome (list AnnotationNode) :=
  build_flat_tree <$> full_tree_list fuel table self.

(** The first loop of [resolve_subtree]:
    [while node.parent_id is not None: ancestors.append(node); node = node.parent]
    followed by [ancestors.append(node)]. *)
Fixpoint ancestors (fuel : nat) (table : list RawNode) (node : RawNode)
  {struct fuel} : outcome (list RawNode) :=
  match parent_id node with
  | None => Done [node]
  | Some pk =>
      match fuel with
      | O => OutOfFuel
      | S fuel' => (node ::.) <$> (get table pk ≫= ancestors fuel' table)
      end
  end.

(** [list(combined_qs)] in [resolve_subtree]: the rows whose id is one of
    [ancestor_ids], then (UNION ALL, no ORDER BY) the rows of the descendants
    expression. *)
Definition subtree_nodes (fuel : nat) (table : list RawNode) (self : RawNode)
  : outcome (list RawNode) :=
  ancestors_ ← ancestors fuel table self;
  let ancestor_ids := node_id <$> ancestors_ in
  descendants ← with_recursive fuel table (filter_parent_id table (node_id self));
  Done (filter_id_in table ancestor_ids ++ descendants).

Definition resolve_subtree (fuel : nat) (table : list RawNode) (self : RawNode)
  : outcome (list AnnotationNode) :=
  build_flat_tree <$> subtree_nodes fuel table self.

(** ** Populations *)

Definition is_done {A} (o : outcome A) : bool :=
  match o with Done _ => true | _ => false end.

(** [id] is the primary key of the table. *)
Definition unique_ids (table : list RawNode) : bool :=
  bool_decide (NoDup (node_id <$> table)).

(** The parent relation is acyclic (and has no dangling reference): walking
    [parent] upward from any row reaches a row without parent, within as many
    steps as the table has rows.  [acyclic_iff_no_cycle] below relates this
    test to the child relation: no row is its own descendant. *)
Definition acyclic (table : list RawNode) : bool :=
  forallb (λ row, is_done (root_ancestor (length table) table row)) table.

Definition well_formed (table : list RawNode) : bool :=
  unique_ids table && acyclic table.

(** Every [parent_id] refers to a row of the table (the foreign key). *)
Definition referential_integrity (table : list RawNode) : bool :=
  forallb (λ row, match parent_id row with
                  | Some pk => bool_decide (pk ∈ node_id <$> table)
                  | None => true
                  end) table.

(** [row] is reached from the row with id [top] by following the child
    relation one or more times. *)
Inductive descendant_of (table : list RawNode) (top : Z) : RawNode → Prop :=
  | descendant_child row :
      row ∈ table → parent_id row = Some top → descendant_of table top row
  | descendant_step mid row :
      descendant_of table top mid →
      row ∈ table → parent_id row = Some (node_id mid) →
      descendant_of table top row.

(** [a] is [node] or is reached from [node] by following [parent] upward. *)
Inductive ancestor_or_self (table : list RawNode) : RawNode → RawNode → Prop :=
  | ancestor_self node : ancestor_or_self table node node
  | ancestor_parent node mid a :
      mid ∈ table → parent_id node = Some (node_id mid) →
      ancestor_or_self table mid a →
      ancestor_or_self table node a.

(** The true root of [node]: the ancestor (or [node] itself) without parent. *)
Definition true_root (table : list RawNode) (node root : RawNode) : Prop :=
  ancestor_or_self table node root ∧ parent_id root = None.

(** Number of rows on the way from [row] up to its root, [row] included. *)
Definition depth (table : list RawNode) (row : RawNode) : nat :=
  match ancestors (length table) table row with
  | Done path => length path
  | _ => O
  end.

(** The rows visited when walking [parent] upward from [node], at most
    [fuel] steps. *)
Fixpoint parent_chain (fuel : nat) (table : list RawNode) (node : RawNode)
  : list RawNode :=
  node ::
  match fuel, parent_id node with
  | S fuel', Some pk =>
      match get table pk with
      | Done parent => parent_chain fuel' table parent
      | _ => []
      end
  | _, _ => []
  end.

(** The children, within [nodes], of the node with id [pk], as the first
    loop of [build_flat_tree] sees them. *)
Definition children_within (nodes : list RawNode) (pk : Z) : list Z :=
  node_id <$> filter (λ node, parent_id node = Some pk ∧ pk ≠ 0) nodes.

(** How many times [x] occurs in [l]. *)
Definition occurrences {A} `{EqDecision A} (x : A) (l : list A) : nat :=
  length (filter (λ y, y = x) l).

(** ** The population of the scenarios: [{1: null, 2: 1, 3: 1, 4: 2}] *)

Module Scenario.
Definition n1 := {| node_id := 1; parent_id := None; raw_text := "one" |}.
Definition n2 := {| node_id := 2; parent_id := Some 1; raw_text := "two" |}.
Definition n3 := {| node_id := 3; parent_id := Some 1; raw_text := "three" |}.
Definition n4 := {| node_id := 4; parent_id := Some 2; raw_text := "four" |}.
Definition population : list RawNode := [n1; n2; n3; n4].
(** The same rows, stored in another order. *)
Definition shuffled : list RawNode := [n4; n2; n1; n3].
(** A node handle whose id, 999, is not in the population. *)
Definition n999 := {| node_id := 999; parent_id := None; raw_text := "gone" |}.
(** [encode] at the tag the resolvers use. *)
Definition enc (pk : Z) : string := to_global_id "AnnotationType" pk.
(** The result set of [subtree(2)], and node 2 listed twice after node 1. *)
Definition subtree_2 : list RawNode := [n1; n2; n4].
(** The flattened [subtree(2)] of scenario C. *)
Definition flat_subtree_2 : list AnnotationNode :=
  [ {| node_id_global := enc 1; node_raw_text := "one"; children := [enc 2] |};
    {| node_id_global := enc 2; node_raw_text := "two"; children := [enc 4] |};
    {| node_id_global := enc 4; node_raw_text := "four"; children := [] |} ].
(** Whether [resolve_subtree] on node 2 gives scenario C, up to the order
    of the records, when the rows are stored as [table]. *)
Definition scenario_C_holds (table : list RawNode) : bool :=
  match subtree_nodes 1 table n2 with
  | Done rows =>
      bool_decide (rows ≡ₚ subtree_2)
      && bool_decide (build_flat_tree rows ≡ₚ flat_subtree_2)
  | _ => false
  end.
Definition twice : list RawNode := [n1; n2; n2].
End Scenario.

(** ** A cyclic population: [{1: 2, 2: 1}] *)

Module Cyclic.
Definition c1 := {| node_id := 1; parent_id := Some 2; raw_text := "a" |}.
Definition c2 := {| node_id := 2; parent_id := Some 1; raw_text := "b" |}.
Definition population : list RawNode := [c1; c2].
End Cyclic.

(** ** An input of the flattener with a node whose id is 0 *)

Module Falsy.
Definition zero := {| node_id := 0; parent_id := None; raw_text := "zero" |}.
Definition five := {| node_id := 5; parent_id := Some 0; raw_text := "five" |}.
Definition nodes : list RawNode := [zero; five; five].
End Falsy.


(** ** The filtering resolvers of [DocumentType], [CorpusType] and [AnalysisType] *)

Module Filtering.

(** [LabelTypeEnum] and the [.value] of its members. *)
Inductive LabelTypeEnum :=
  | RELATIONSHIP_LABEL
  | DOC_TYPE_LABEL
  | TOKEN_LABEL
  | METADATA_LABEL
  | SPAN_LABEL.

Definition value (label_type : LabelTypeEnum) : string :=
  match label_type with
  | RELATIONSHIP_LABEL => "RELATIONSHIP_LABEL"
  | DOC_TYPE_LABEL => "DOC_TYPE_LABEL"
  | TOKEN_LABEL => "TOKEN_LABEL"
  | METADATA_LABEL => "METADATA_LABEL"
  | SPAN_LABEL => "SPAN_LABEL"
  end.

(** The columns of an [Annotation] row these resolvers filter on:
    [corpus_id], [analysis_id] and [document_id] are nullable foreign keys,
    [ann_label_type] is [annotation_label__label_type], absent when the
    annotation has no label. *)
Record Annotation := {
  ann_pk : Z;
  ann_corpus_id : option Z;
  ann_analysis_id : option Z;
  ann_document_id : option Z;
  ann_structural : bool;
  ann_label_type : option string;
}.

Global Instance Annotation_eq_dec : EqDecision Annotation.
Proof. solve_decision. Defined.

(** What a resolver without [try] hands back: its value, or the exception
    that escaped. *)
Inductive response (A : Type) :=
  | Returned (a : A)
  | Failed.
Arguments Returned {A} a.
Arguments Failed {A}.

Section resolvers.

(** [from_global_id(gid)[1]] used as the primary key of a [filter]: the key,
    or [None] when decoding or the filter raises.  [from_global_id] belongs
    to the package [graphql_relay]; it is a parameter here. *)
Context (pk_of_global_id : string → option Z).

(** [DocumentType.resolve_all_annotations]; [doc_annotations] are the rows
    of [self.doc_annotations].  The body of the [try] runs in the option
    monad; [except Exception] turns a failure into the empty list. *)
Definition resolve_all_annotations (doc_annotations : list Annotation)
  (corpus_id : string) (analysis_id : option string) (is_structural : option bool)
  : list Annotation :=
  default []
    (corpus_pk ← pk_of_global_id corpus_id;
     let annotations :=
       filter (λ a, ann_corpus_id a = Some corpus_pk) doc_annotations in
     annotations ←
       match analysis_id with
       | Some gid =>
           if decide (gid = "__none__")
           then Some (filter (λ a, ann_analysis_id a = None) annotations)
           else analysis_pk ← pk_of_global_id gid;
                Some (filter (λ a, ann_analysis_id a = Some analysis_pk) annotations)
       | None => Some annotations
       end;
     let annotations :=
       match is_structural with
       | Some flag => filter (λ a, ann_structural a = flag) annotations
       | None => annotations
       end in
     Some (remove_dups annotations)).

(** [CorpusType.resolve_all_annotation_summaries]; [annotations] are the
    rows of [self.annotations.all()].  [if label_types and ...] holds for a
    non-empty list, [if analysis_id:] for a non-empty string; the inner
    [try] only logs a failure and leaves the set as it is. *)
Definition resolve_all_annotation_summaries (annotations : list Annotation)
  (analysis_id : option string) (label_types : option (list LabelTypeEnum))
  : list Annotation :=
  let annotation_set := annotations in
  let annotation_set :=
    match label_types with
    | Some ((_ :: _) as label_types) =>
        filter (λ a, ann_label_type a ∈ (Some ∘ value) <$> label_types)
          annotation_set
    | _ => annotation_set
    end in
  let annotation_set :=
    match analysis_id with
    | Some gid =>
        if decide (gid = "") then annotation_set
        else match pk_of_global_id gid with
             | Some analysis_pk =>
                 filter (λ a, ann_analysis_id a = Some analysis_pk) annotation_set
             | None => annotation_set
             end
    | None => annotation_set
    end in
  annotation_set.

(** [AnalysisType.resolve_full_annotation_list]; [annotations] are the rows
    of [self.annotations.all()].  There is no [try] here. *)
Definition resolve_full_annotation_list (annotations : list Annotation)
  (document_id : option string) : response (list Annotation) :=
  match document_id with
  | Some gid =>
      match pk_of_global_id gid with
      | Some document_pk =>
          Returned (filter (λ a, ann_document_id a = Some document_pk) annotations)
      | None => Failed
      end
  | None => Returned annotations
  end.

End resolvers.

(** Modelled from the spec: the primary key [decode] recovers from an
    external id, for the examples. *)
Definition decoded_pk (gid : string) : option Z :=
  match from_global_id gid with
  | Decoded _ pk => Some pk
  | MalformedIdentifier => None
  end.

(** Three annotations of one document. *)
Definition a1 := {| ann_pk := 1; ann_corpus_id := Some 7; ann_analysis_id := None;
                    ann_document_id := Some 3; ann_structural := true;
                    ann_label_type := Some "TOKEN_LABEL" |}.
Definition a2 := {| ann_pk := 2; ann_corpus_id := Some 7; ann_analysis_id := Some 5;
                    ann_document_id := Some 3; ann_structural := false;
                    ann_label_type := Some "SPAN_LABEL" |}.
Definition a3 := {| ann_pk := 3; ann_corpus_id := Some 8; ann_analysis_id := Some 5;
                    ann_document_id := Some 3; ann_structural := false;
                    ann_label_type := None |}.
Definition rows : list Annotation := [a1; a2; a3].

End Filtering.

(** ** [CorpusAction]: validation and check constraint *)

Module CorpusActions.

(** The two nullable foreign-key columns of a [CorpusAction],
    [fieldset_id] and [analyzer_id]. *)
Record CorpusAction := {
  fieldset_id : option Z;
  analyzer_id : option Z;
}.

(** What [clean] does when it does not fail on a fetch: return, or raise
    [ValidationError] with a message. *)
Inductive validation :=
  | Valid
  | ValidationError (message : string).

(** [self.fieldset] and [self.analyzer]: [None] for a null key; otherwise the
    related row is fetched by primary key from its table ([rows] holds the
    primary keys of that table), and [DoesNotExist] is raised when there is
    no such row. *)
Definition related (rows : list Z) (fk : option Z) : outcome (option Z) :=
  match fk with
  | None => Done None
  | Some pk => if decide (pk ∈ rows) then Done (Some pk) else Raised DoesNotExist
  end.

(** A related object is truthy, [None] is not. *)
Definition is_set (related_object : option Z) : bool :=
  match related_object with Some _ => true | None => false end.

(** [CorpusAction.clean].  [and] evaluates [self.analyzer] only when the
    test on [self.fieldset] has not decided: in the first [if] when the
    fieldset is set, in the second when it is not. *)
Definition clean (fieldsets analyzers : list Z) (self : CorpusAction)
  : outcome validation :=
  fieldset ← related fieldsets (fieldset_id self);
  if is_set fieldset then
    analyzer ← related analyzers (analyzer_id self);
    if is_set analyzer
    then Done (ValidationError "Only one of fieldset or analyzer can be set.")
    else Done Valid
  else
    analyzer ← related analyzers (analyzer_id self);
    if negb (is_set analyzer)
    then Done (ValidationError "Either fieldset or analyzer must be set.")
    else Done Valid.

(** [..._isnull=flag], on the key column. *)
Definition isnull (fk : option Z) (flag : bool) : bool :=
  Bool.eqb (negb (is_set fk)) flag.

(** The [CheckConstraint] of [CorpusAction.Meta],
    [Q(fieldset__isnull=False, analyzer__isnull=True)
     | Q(fieldset__isnull=True, analyzer__isnull=False)]. *)
Definition exactly_one_of_fieldset_or_analyzer (row : CorpusAction) : bool :=
  (isnull (fieldset_id row) false && isnull (analyzer_id row) true)
  || (isnull (fieldset_id row) true && isnull (analyzer_id row) false).

(** The same constraint as migration 0010 adds it,
    [Q(Q(analyzer__isnull=True, fieldset__isnull=False),
       Q(analyzer__isnull=False, fieldset__isnull=True), _connector="OR")]. *)
Definition migration_0010_constraint (row : CorpusAction) : bool :=
  (isnull (analyzer_id row) true && isnull (fieldset_id row) false)
  || (isnull (analyzer_id row) false && isnull (fieldset_id row) true).

(** Every key that is set refers to a row of its table. *)
Definition keys_exist (fieldsets analyzers : list Z) (row : CorpusAction) : Prop :=
  (∀ pk, fieldset_id row = Some pk → pk ∈ fieldsets)
  ∧ (∀ pk, analyzer_id row = Some pk → pk ∈ analyzers).

End CorpusActions.

(** * Proofs *)

(** ** The flattener *)

Section flattener.
Implicit Types (nodes : list RawNode) (m : gmap Z (list Z)) (pk : Z).

Lemma children_within_nil pk : children_within [] pk = [].
Proof. done. Qed.

Lemma children_within_cons node nodes pk :
  children_within (node :: nodes) pk =
    (if decide (parent_id node = Some pk ∧ pk ≠ 0)
     then [node_id node] else []) ++ children_within nodes pk.
Proof.
  unfold children_within. rewrite filter_cons.
  by destruct (decide (parent_id node = Some pk ∧ pk ≠ 0)).
Qed.

Lemma children_within_zero nodes : children_within nodes 0 = [].
Proof.
  induction nodes as [|node nodes IH]; [done|].
  rewrite children_within_cons, IH.
  destruct (decide _) as [[_ ?]|]; done.
Qed.

Lemma record_child_lookup m node pk :
  default [] (record_child m node !! pk) =
    default [] (m !! pk) ++
    (if decide (parent_id node = Some pk ∧ pk ≠ 0) then [node_id node] else []).
Proof.
  unfold record_child.
  destruct (parent_id node) as [p|] eqn:Hp.
  - destruct (decide (p = 0)) as [->|Hnz].
    + destruct (decide _) as [[[= <-] ?]|]; [done|]. by rewrite app_nil_r.
    + destruct (decide (p = pk)) as [->|Hne].
      * rewrite lookup_insert_eq. simpl.
        destruct (decide _) as [|Hn]; [done|]. destruct Hn; done.
      * rewrite lookup_insert_ne by done.
        destruct (decide _) as [[[= ?] _]|]; [done|]. by rewrite app_nil_r.
  - destruct (decide _) as [[[=] _]|]. by rewrite app_nil_r.
Qed.

Lemma foldl_record_child nodes m pk :
  default [] (foldl record_child m nodes !! pk) =
    default [] (m !! pk) ++ children_within nodes pk.
Proof.
  revert m. induction nodes as [|node nodes IH]; intros m; simpl.
  - by rewrite children_within_nil, app_nil_r.
  - by rewrite IH, record_child_lookup, children_within_cons, app_assoc.
Qed.

(** The entry of [id_to_children] at [pk], read with
    [id_to_children.get(pk, [])]. *)
Lemma id_to_children_get nodes pk :
  default [] (id_to_children nodes !! pk) = children_within nodes pk.
Proof. unfold id_to_children. by rewrite foldl_record_child, lookup_empty. Qed.

(** [build_flat_tree] emits, for every input node and in the order of the
    input, the node's encoded id, its text and the encoded ids of the
    input nodes whose (truthy) [parent_id] is the node's id. *)
Lemma build_flat_tree_unfold nodes :
  build_flat_tree nodes =
    (λ node, {| node_id_global := to_global_id "AnnotationType" (node_id node);
                node_raw_text := raw_text node;
                children := to_global_id "AnnotationType" <$>
                              children_within nodes (node_id node) |}) <$> nodes.
Proof.
  unfold build_flat_tree. apply list_fmap_ext. intros _ node _.
  unfold node_dict. by rewrite id_to_children_get.
Qed.

Lemma build_flat_tree_lookup nodes i node :
  nodes !! i = Some node →
  build_flat_tree nodes !! i =
    Some {| node_id_global := to_global_id "AnnotationType" (node_id node);
            node_raw_text := raw_text node;
            children := to_global_id "AnnotationType" <$>
                          children_within nodes (node_id node) |}.
Proof. intros H. by rewrite build_flat_tree_unfold, list_lookup_fmap, H. Qed.

Lemma elem_of_children_within nodes pk c :
  c ∈ children_within nodes pk ↔
  ∃ node, node ∈ nodes ∧ node_id node = c ∧ parent_id node = Some pk ∧ pk ≠ 0.
Proof.
  unfold children_within. rewrite list_elem_of_fmap. split.
  - intros (node & -> & [[? ?] ?]%list_elem_of_filter). eauto.
  - intros (node & ? & <- & ? & ?). exists node. split; [done|].
    apply list_elem_of_filter. eauto.
Qed.
End flattener.

Lemma occurrences_cons {A} `{EqDecision A} (x y : A) (l : list A) :
  occurrences x (y :: l) = ((if decide (y = x) then 1 else 0) + occurrences x l)%nat.
Proof. unfold occurrences. rewrite filter_cons. by destruct (decide (y = x)). Qed.

Section occurrences.
Context {A B : Type} `{EqDecision A} `{EqDecision B}.
Implicit Types (l : list A) (x : A).

Lemma occurrences_fmap_le (f : A → B) x l :
  (occurrences x l ≤ occurrences (f x) (f <$> l))%nat.
Proof.
  induction l as [|y l IH]; [done|].
  rewrite fmap_cons, !occurrences_cons.
  repeat case_decide; subst; try congruence; lia.
Qed.

Lemma occurrences_filter (P : A → Prop) `{∀ x, Decision (P x)} x l :
  P x → occurrences x (filter P l) = occurrences x l.
Proof.
  intros HP. induction l as [|y l IH]; [done|].
  rewrite filter_cons. destruct (decide (P y)) as [|Hn].
  - rewrite !occurrences_cons. by rewrite IH.
  - rewrite occurrences_cons, IH. destruct (decide (y = x)) as [->|]; done.
Qed.

Lemma occurrences_elem_of x l : x ∈ l → (1 ≤ occurrences x l)%nat.
Proof.
  intros Hin. unfold occurrences.
  assert (x ∈ filter (λ y, y = x) l) as Hf by (by apply list_elem_of_filter).
  destruct (filter _ l); [by apply elem_of_nil in Hf|simpl; lia].
Qed.

Lemma occurrences_lookup_2 x l i j :
  i ≠ j → l !! i = Some x → l !! j = Some x → (2 ≤ occurrences x l)%nat.
Proof.
  revert i j. induction l as [|y l IH]; intros i j Hij Hi Hj; [done|].
  rewrite occurrences_cons.
  destruct i as [|i], j as [|j]; simplify_eq/=.
  - rewrite decide_True by done.
    apply list_elem_of_lookup_2, occurrences_elem_of in Hj. lia.
  - rewrite decide_True by done.
    apply list_elem_of_lookup_2, occurrences_elem_of in Hi. lia.
  - assert (i ≠ j) as Hne by congruence.
    specialize (IH i j Hne Hi Hj). case_decide; lia.
Qed.
End occurrences.

(** ** The identifier codec *)

Section codec.
Lemma rsplit_colon_uint d : rsplit_colon (NilEmpty.string_of_uint d) = None.
Proof. induction d; simpl; rewrite ?IHd; done. Qed.

Lemma rsplit_colon_str internal_id : rsplit_colon (str internal_id) = None.
Proof.
  unfold str. destruct (Z.to_int internal_id) as [d|d]; simpl.
  - destruct d; try apply (rsplit_colon_uint (_ d)); done.
  - destruct d; simpl; rewrite ?rsplit_colon_uint; done.
Qed.

Lemma rsplit_colon_app type_tag digits :
  rsplit_colon digits = None →
  rsplit_colon (type_tag ++ ":" ++ digits)%string = Some (type_tag, digits).
Proof.
  intros Hd. induction type_tag as [|c type_tag IH].
  - change (rsplit_colon (String ":" digits) = Some (EmptyString, digits)).
    simpl. by rewrite Hd.
  - change (rsplit_colon (String c (type_tag ++ ":" ++ digits)%string)
            = Some (String c type_tag, digits)).
    simpl. by rewrite IH.
Qed.

Lemma int_of_string_str internal_id :
  NilZero.int_of_string (str internal_id) = Some (Z.to_int internal_id).
Proof.
  unfold str. apply NilZero.isi.
  - destruct internal_id; simpl; try done.
    intros [= Hp]. by apply DecimalPos.Unsigned.to_uint_nonnil in Hp.
  - destruct internal_id; simpl; try done.
    intros [= Hp]. by apply DecimalPos.Unsigned.to_uint_nonnil in Hp.
Qed.

Lemma from_global_id_to_global_id type_tag internal_id :
  from_global_id (to_global_id type_tag internal_id) = Decoded type_tag internal_id.
Proof.
  unfold from_global_id, to_global_id.
  rewrite rsplit_colon_app by apply rsplit_colon_str.
  by rewrite int_of_string_str, DecimalZ.of_to.
Qed.

Lemma to_global_id_inj type_tag type_tag' internal_id internal_id' :
  to_global_id type_tag internal_id = to_global_id type_tag' internal_id' →
  type_tag = type_tag' ∧ internal_id = internal_id'.
Proof.
  intros Heq. apply (f_equal from_global_id) in Heq.
  rewrite !from_global_id_to_global_id in Heq. by simplify_eq.
Qed.

Example from_global_id_no_colon : from_global_id "AnnotationType" = MalformedIdentifier.
Proof. reflexivity. Qed.

Example from_global_id_no_integer :
  from_global_id "AnnotationType:x1" = MalformedIdentifier
  ∧ from_global_id "AnnotationType:" = MalformedIdentifier.
Proof. split; reflexivity. Qed.

Example from_global_id_other_tag :
  from_global_id_expecting "CorpusType" (to_global_id "AnnotationType" 7)
  = MalformedIdentifier.
Proof. reflexivity. Qed.

Global Instance to_global_id_inj' type_tag : Inj (=) (=) (to_global_id type_tag).
Proof. intros x y Heq. by apply to_global_id_inj in Heq as [_ ?]. Qed.
End codec.

(** ** The table queries *)

Section table.
Context (table : list RawNode).
Implicit Types (row node : RawNode) (pk : Z) (fuel : nat).

Lemma elem_of_filter_parent_id row pk :
  row ∈ filter_parent_id table pk ↔ row ∈ table ∧ parent_id row = Some pk.
Proof. unfold filter_parent_id. rewrite list_elem_of_filter. tauto. Qed.

Lemma elem_of_filter_id row pk :
  row ∈ filter_id table pk ↔ row ∈ table ∧ node_id row = pk.
Proof. unfold filter_id. rewrite list_elem_of_filter. tauto. Qed.

Lemma elem_of_filter_id_in row pks :
  row ∈ filter_id_in table pks ↔ row ∈ table ∧ node_id row ∈ pks.
Proof. unfold filter_id_in. rewrite list_elem_of_filter. tauto. Qed.

Lemma elem_of_join_children working row :
  row ∈ join_children table working ↔
  ∃ w, w ∈ working ∧ row ∈ table ∧ parent_id row = Some (node_id w).
Proof.
  unfold join_children. rewrite list_elem_of_bind. split.
  - intros (w & Hrow%elem_of_filter_parent_id & Hw). exists w. tauto.
  - intros (w & Hw & Hrow). exists w. by rewrite elem_of_filter_parent_id.
Qed.

Lemma get_Done pk row : get table pk = Done row → row ∈ table ∧ node_id row = pk.
Proof.
  unfold get. destruct (filter_id table pk) as [|r rows] eqn:Hf; [done|].
  intros [= <-]. apply elem_of_filter_id. rewrite Hf. left.
Qed.

Lemma get_Raised pk e : get table pk = Raised e → pk ∉ node_id <$> table.
Proof.
  unfold get. destruct (filter_id table pk) as [|r rows] eqn:Hf; [|done].
  intros _ (row & -> & Hrow)%list_elem_of_fmap.
  assert (row ∈ filter_id table (node_id row)) as Hin
    by (by apply elem_of_filter_id).
  rewrite Hf in Hin. by apply elem_of_nil in Hin.
Qed.

Lemma get_not_OutOfFuel pk : get table pk ≠ OutOfFuel.
Proof. unfold get. by destruct (filter_id table pk). Qed.

(** *** Tables whose [id] column is a key *)

Lemma unique_ids_NoDup : unique_ids table = true → NoDup (node_id <$> table).
Proof. unfold unique_ids. intros H. by apply bool_decide_eq_true in H. Qed.

Lemma unique_ids_inj row row' :
  unique_ids table = true →
  row ∈ table → row' ∈ table → node_id row = node_id row' → row = row'.
Proof.
  intros Hk%unique_ids_NoDup. revert Hk.
  induction table as [|r rows IH]; simpl; intros Hk Hr Hr' Heq.
  - by apply elem_of_nil in Hr.
  - apply NoDup_cons in Hk as [Hnotin Hk].
    apply elem_of_cons in Hr as [->|Hr], Hr' as [->|Hr']; [done| | |by apply IH].
    + destruct Hnotin. rewrite Heq. by apply list_elem_of_fmap_2.
    + destruct Hnotin. rewrite <- Heq. by apply list_elem_of_fmap_2.
Qed.

Lemma unique_ids_NoDup_rows : unique_ids table = true → NoDup table.
Proof. intros Hk%unique_ids_NoDup. by apply NoDup_fmap_1 in Hk. Qed.

Lemma get_unique row :
  unique_ids table = true → row ∈ table → get table (node_id row) = Done row.
Proof.
  intros Hk Hrow. destruct (get table (node_id row)) as [r|e|] eqn:Hget.
  - apply get_Done in Hget as [Hr Heq]. f_equal. by apply unique_ids_inj.
  - apply get_Raised in Hget. destruct Hget. by apply list_elem_of_fmap_2.
  - by apply get_not_OutOfFuel in Hget.
Qed.

Lemma filter_id_unique row :
  unique_ids table = true → row ∈ table → filter_id table (node_id row) = [row].
Proof.
  intros Hk Hrow.
  assert (NoDup (filter_id table (node_id row))) as Hnd
    by (apply NoDup_filter; by apply unique_ids_NoDup_rows).
  assert (∀ r, r ∈ filter_id table (node_id row) → r = row) as Hall.
  { intros r [? ?]%elem_of_filter_id. by apply unique_ids_inj. }
  assert (row ∈ filter_id table (node_id row)) as Hin by (by apply elem_of_filter_id).
  destruct (filter_id table (node_id row)) as [|r1 [|r2 rows]].
  - by apply elem_of_nil in Hin.
  - f_equal. apply Hall. left.
  - apply NoDup_cons in Hnd as [Hnotin _]. destruct Hnotin.
    rewrite (Hall r1), (Hall r2); [left| right; left | left].
Qed.

(** *** More fuel does not change a result *)

Lemma root_ancestor_mono fuel fuel' node root :
  root_ancestor fuel table node = Done root → (fuel ≤ fuel')%nat →
  root_ancestor fuel' table node = Done root.
Proof.
  revert fuel' node. induction fuel as [|fuel IH]; intros fuel' node; simpl.
  - destruct (parent_id node) eqn:Hp; [done|]. intros [= <-] _.
    destruct fuel'; simpl; by rewrite Hp.
  - destruct fuel' as [|fuel']; [lia|]. simpl.
    destruct (parent_id node); [|done].
    destruct (get table z); simpl; [|done..].
    intros H ?. apply IH; [done|lia].
Qed.

Lemma ancestors_mono fuel fuel' node path :
  ancestors fuel table node = Done path → (fuel ≤ fuel')%nat →
  ancestors fuel' table node = Done path.
Proof.
  revert fuel' node path. induction fuel as [|fuel IH]; intros fuel' node path; simpl.
  - destruct (parent_id node) eqn:Hp; [done|]. intros [= <-] _.
    destruct fuel'; simpl; by rewrite Hp.
  - destruct fuel' as [|fuel']; [lia|]. simpl.
    destruct (parent_id node); [|done].
    destruct (get table z) as [q| |]; simpl; [|done..].
    destruct (ancestors fuel table q) as [path'| |] eqn:Hq; simpl; [|done..].
    intros [= <-] ?. by rewrite (IH fuel' q path') by (done || lia).
Qed.

Lemma with_recursive_mono fuel fuel' working rows :
  with_recursive fuel table working = Done rows → (fuel ≤ fuel')%nat →
  with_recursive fuel' table working = Done rows.
Proof.
  revert fuel' working rows.
  induction fuel as [|fuel IH]; intros fuel' working rows; simpl.
  - destruct working; [|done]. intros [= <-] _. by destruct fuel'.
  - destruct working as [|w working]; [intros [= <-] _; by destruct fuel'|].
    destruct fuel' as [|fuel']; [lia|]. simpl.
    destruct (with_recursive fuel table _) as [rows'| |] eqn:Hrec; simpl; [|done..].
    intros [= <-] ?. by rewrite (IH fuel' _ rows') by (done || lia).
Qed.

Lemma descendants_list_mono fuel fuel' self rows :
  descendants_list fuel table self = Done rows → (fuel ≤ fuel')%nat →
  descendants_list fuel' table self = Done rows.
Proof.
  unfold descendants_list. intros H Hle.
  destruct (with_recursive fuel table _) as [rows'| |] eqn:Hrec; [|done..].
  by rewrite (with_recursive_mono fuel fuel' _ rows').
Qed.

Lemma full_tree_list_mono fuel fuel' self rows :
  full_tree_list fuel table self = Done rows → (fuel ≤ fuel')%nat →
  full_tree_list fuel' table self = Done rows.
Proof.
  unfold full_tree_list. intros H Hle.
  destruct (root_ancestor fuel table self) as [root| |] eqn:Hroot; [|done..].
  rewrite (root_ancestor_mono fuel fuel' self root) by done. simpl in *.
  destruct (with_recursive fuel table _) as [rows'| |] eqn:Hrec; [|done..].
  by rewrite (with_recursive_mono fuel fuel' _ rows').
Qed.

Lemma subtree_nodes_mono fuel fuel' self rows :
  subtree_nodes fuel table self = Done rows → (fuel ≤ fuel')%nat →
  subtree_nodes fuel' table self = Done rows.
Proof.
  unfold subtree_nodes. intros H Hle.
  destruct (ancestors fuel table self) as [path| |] eqn:Hpath; [|done..].
  rewrite (ancestors_mono fuel fuel' self path) by done. simpl in *.
  destruct (with_recursive fuel table _) as [desc| |] eqn:Hrec; [|done..].
  by rewrite (with_recursive_mono fuel fuel' _ desc).
Qed.

(** *** The two upward walks agree *)

Lemma ancestors_head fuel node path :
  ancestors fuel table node = Done path → ∃ path', path = node :: path'.
Proof.
  destruct fuel; simpl.
  - destruct (parent_id node); [done|]. intros [= <-]. eauto.
  - destruct (parent_id node); [|intros [= <-]; eauto].
    destruct (get table z); simpl; [|done..].
    destruct (ancestors fuel table a); simpl; [|done..]. intros [= <-]. eauto.
Qed.

Lemma ancestors_root_ancestor fuel node :
  root_ancestor fuel table node =
    (λ path, default node (last path)) <$> ancestors fuel table node.
Proof.
  revert node. induction fuel as [|fuel IH]; intros node; simpl.
  - by destruct (parent_id node).
  - destruct (parent_id node); [|done].
    destruct (get table z) as [q| |]; simpl; [|done..].
    rewrite IH. destruct (ancestors fuel table q) as [path| |] eqn:Hq; simpl; [|done..].
    apply ancestors_head in Hq as [path' ->].
    rewrite !last_cons. by destruct (last path').
Qed.

Lemma ancestors_length fuel node path :
  ancestors fuel table node = Done path → (1 ≤ length path ≤ S fuel)%nat.
Proof.
  revert node path. induction fuel as [|fuel IH]; intros node path; simpl.
  - destruct (parent_id node); [done|]. intros [= <-]. simpl. lia.
  - destruct (parent_id node); [|intros [= <-]; simpl; lia].
    destruct (get table z) as [q| |]; simpl; [|done..].
    destruct (ancestors fuel table q) as [path'| |] eqn:Hq; simpl; [|done..].
    intros [= <-]. apply IH in Hq. simpl. lia.
Qed.
End table.

(** ** Well-formed populations *)

Section well_formed.
Context (table : list RawNode) (Hwf : well_formed table = true).
Implicit Types (row node self : RawNode) (pk : Z) (fuel : nat).

Lemma wf_unique_ids : unique_ids table = true.
Proof using Hwf. unfold well_formed in Hwf. by apply andb_prop in Hwf as [? _]. Qed.

Lemma wf_root_ancestor row :
  row ∈ table → ∃ root, root_ancestor (length table) table row = Done root.
Proof using Hwf.
  intros Hrow. unfold well_formed in Hwf. apply andb_prop in Hwf as [_ Hac].
  unfold acyclic in Hac. rewrite forallb_forall in Hac.
  apply list_elem_of_In, Hac in Hrow.
  destruct (root_ancestor _ table row); [eauto|done..].
Qed.

Lemma wf_ancestors row :
  row ∈ table → ∃ path, ancestors (length table) table row = Done path.
Proof using Hwf.
  intros [root Hroot]%wf_root_ancestor.
  rewrite ancestors_root_ancestor in Hroot.
  destruct (ancestors _ table row); [eauto|done..].
Qed.

Lemma depth_bounds row : row ∈ table → (1 ≤ depth table row ≤ S (length table))%nat.
Proof using Hwf.
  intros [path Hpath]%wf_ancestors. unfold depth. rewrite Hpath.
  by apply ancestors_length in Hpath.
Qed.

Lemma depth_child row parent :
  row ∈ table → parent ∈ table → parent_id row = Some (node_id parent) →
  depth table row = S (depth table parent).
Proof using Hwf.
  intros Hrow Hparent Hp. destruct (wf_ancestors row Hrow) as [path Hpath].
  unfold depth. rewrite Hpath.
  destruct (length table) as [|n] eqn:Hn; simpl in Hpath; rewrite Hp in Hpath; [done|].
  rewrite get_unique in Hpath by (done || apply wf_unique_ids). simpl in Hpath.
  destruct (ancestors n table parent) as [path'| |] eqn:Hq; simpl in Hpath; [|done..].
  injection Hpath as <-.
  by rewrite (ancestors_mono table n (S n) parent path') by (done || lia).
Qed.

Lemma depth_top row : parent_id row = None → depth table row = 1%nat.
Proof.
  intros Hp. unfold depth. destruct (length table); simpl; by rewrite Hp.
Qed.

(** *** The child and parent relations *)

Lemma descendant_of_elem_of top row : descendant_of table top row → row ∈ table.
Proof. by destruct 1. Qed.

Lemma descendant_of_below top child row :
  child ∈ table → parent_id child = Some top →
  descendant_of table (node_id child) row → descendant_of table top row.
Proof.
  intros Hc Hp. induction 1 as [row Hrow Hrp|mid row _ IH Hrow Hrp].
  - apply (descendant_step _ _ child); [by apply descendant_child|done..].
  - by apply (descendant_step _ _ mid).
Qed.

Lemma descendant_of_top top row :
  descendant_of table top row ↔
  (row ∈ table ∧ parent_id row = Some top) ∨
  ∃ child, child ∈ table ∧ parent_id child = Some top ∧
           descendant_of table (node_id child) row.
Proof.
  split.
  - induction 1 as [row Hrow Hrp|mid row Hmid IH Hrow Hrp]; [by left|right].
    destruct IH as [[Hm Hmp]|(child & Hc & Hcp & Hd)].
    + exists mid. repeat split; [done..|]. by apply descendant_child.
    + exists child. repeat split; [done..|]. by apply (descendant_step _ _ mid).
  - intros [[Hrow Hrp]|(child & Hc & Hcp & Hd)].
    + by apply descendant_child.
    + by eapply descendant_of_below.
Qed.

Lemma descendant_of_depth top row :
  top ∈ table → descendant_of table (node_id top) row →
  (depth table top < depth table row)%nat.
Proof using Hwf.
  intros Htop. induction 1 as [row Hrow Hrp|mid row Hmid IH Hrow Hrp].
  - rewrite (depth_child row top) by done. lia.
  - rewrite (depth_child row mid); [lia|done| |done].
    by eapply descendant_of_elem_of.
Qed.

Lemma ancestor_or_self_elem_of node a :
  node ∈ table → ancestor_or_self table node a → a ∈ table.
Proof. intros Hn. induction 1; auto. Qed.

Lemma ancestor_or_self_depth node a :
  node ∈ table → ancestor_or_self table node a →
  (depth table a ≤ depth table node)%nat.
Proof using Hwf.
  intros Hn. induction 1 as [node|node mid a Hmid Hp Ha IH]; [done|].
  rewrite (depth_child node mid) by done. specialize (IH Hmid). lia.
Qed.

(** In a well-formed population no row is its own descendant. *)
Lemma descendant_of_irrefl row : row ∈ table → ¬ descendant_of table (node_id row) row.
Proof using Hwf. intros Hrow Hd%descendant_of_depth; [lia|done]. Qed.

(** *** The upward walks *)

Lemma ancestors_elem_of fuel node path a :
  node ∈ table → ancestors fuel table node = Done path →
  a ∈ path ↔ ancestor_or_self table node a.
Proof using Hwf.
  revert node path. induction fuel as [|fuel IH]; intros node path Hn; simpl.
  - destruct (parent_id node) eqn:Hp; [done|]. intros [= <-].
    rewrite list_elem_of_singleton. split; [intros ->; constructor|].
    inversion 1; [done|congruence].
  - destruct (parent_id node) as [pk|] eqn:Hp.
    + destruct (get table pk) as [q| |] eqn:Hget; simpl; [|done..].
      destruct (ancestors fuel table q) as [path'| |] eqn:Hq; simpl; [|done..].
      intros [= <-]. apply get_Done in Hget as [Hqt <-].
      rewrite elem_of_cons, (IH q path') by done. split.
      * intros [->|Ha]; [constructor|]. by eapply ancestor_parent.
      * inversion 1 as [|? mid ? Hmid Hmp Ha]; subst; [by left|right].
        rewrite Hp in Hmp. injection Hmp as Hmp.
        by rewrite (unique_ids_inj table q mid) by (done || apply wf_unique_ids).
    + intros [= <-]. rewrite list_elem_of_singleton.
      split; [intros ->; constructor|]. inversion 1; [done|congruence].
Qed.

Lemma root_ancestor_true_root fuel node root :
  node ∈ table → root_ancestor fuel table node = Done root →
  true_root table node root ∧ root ∈ table.
Proof.
  revert node. induction fuel as [|fuel IH]; intros node Hn; simpl.
  - destruct (parent_id node) eqn:Hp; [done|]. intros [= <-].
    split; [split|]; [constructor|done..].
  - destruct (parent_id node) as [pk|] eqn:Hp.
    + destruct (get table pk) as [q| |] eqn:Hget; simpl; [|done..].
      apply get_Done in Hget as [Hqt <-]. intros [[Ha Hr] Hrt]%IH; [|done].
      split; [split|]; [|done..]. by apply (ancestor_parent _ _ q).
    + intros [= <-]. split; [split|]; [constructor|done..].
Qed.

Lemma true_root_unique node root root' :
  true_root table node root → true_root table node root' → root = root'.
Proof using Hwf.
  intros [Ha Hr] [Ha' Hr']. induction Ha as [node|node mid a Hmid Hp Ha IH].
  - inversion Ha'; [done|congruence].
  - inversion Ha' as [|? mid' ? Hmid' Hp' Ha'']; subst; [congruence|].
    apply IH; [done|].
    rewrite Hp in Hp'. injection Hp' as Hp'.
    by rewrite (unique_ids_inj table mid mid') by (done || apply wf_unique_ids).
Qed.
End well_formed.

(** ** Acyclic populations

    [acyclic] bounds the upward walks by the length of the table.  Where
    [id] is a key, this is the same as: no dangling [parent_id], and no row
    is its own descendant. *)

Section acyclic.
Context (table : list RawNode) (Hk : unique_ids table = true).
Implicit Types (row node : RawNode) (fuel : nat).

Lemma referential_integrity_elem_of row pk :
  referential_integrity table = true →
  row ∈ table → parent_id row = Some pk → pk ∈ node_id <$> table.
Proof.
  unfold referential_integrity. rewrite forallb_forall.
  intros Hri Hrow%list_elem_of_In Hp. apply Hri in Hrow. rewrite Hp in Hrow.
  by apply bool_decide_eq_true in Hrow.
Qed.

Lemma root_ancestor_not_Raised fuel node e :
  referential_integrity table = true → node ∈ table →
  root_ancestor fuel table node ≠ Raised e.
Proof.
  intros Hri. revert node. induction fuel as [|fuel IH]; intros node Hn; simpl.
  - by destruct (parent_id node).
  - destruct (parent_id node) as [pk|] eqn:Hp; [|done].
    destruct (get table pk) as [q|e'|] eqn:Hget; simpl.
    + apply IH. by apply get_Done in Hget as [? _].
    + apply get_Raised in Hget. destruct Hget.
      by apply (referential_integrity_elem_of node).
    + by apply get_not_OutOfFuel in Hget.
Qed.

Lemma parent_chain_length fuel node :
  root_ancestor fuel table node = OutOfFuel →
  length (parent_chain fuel table node) = S fuel.
Proof.
  revert node. induction fuel as [|fuel IH]; intros node; simpl.
  - by destruct (parent_id node).
  - destruct (parent_id node) as [pk|]; [|done].
    destruct (get table pk) as [q| |] eqn:Hget; simpl; [|done|].
    + intros Hq. by rewrite (IH q Hq).
    + by apply get_not_OutOfFuel in Hget.
Qed.

Lemma parent_chain_elem_of fuel node a :
  node ∈ table → a ∈ parent_chain fuel table node →
  a ∈ table ∧ (a = node ∨ descendant_of table (node_id a) node).
Proof.
  revert node. induction fuel as [|fuel IH]; intros node Hn; simpl.
  - intros ->%list_elem_of_singleton. auto.
  - intros [->|Ha]%elem_of_cons; [auto|].
    destruct (parent_id node) as [pk|] eqn:Hp; [|by apply elem_of_nil in Ha].
    destruct (get table pk) as [q| |] eqn:Hget; try by apply elem_of_nil in Ha.
    apply get_Done in Hget as [Hq <-].
    destruct (IH q Hq Ha) as [Hat [->|Hd]]; (split; [done|right]).
    + by apply descendant_child.
    + by apply (descendant_step _ _ q).
Qed.

Lemma parent_chain_NoDup fuel node :
  (∀ row, row ∈ table → ¬ descendant_of table (node_id row) row) →
  node ∈ table → NoDup (parent_chain fuel table node).
Proof.
  intros Hirr. revert node. induction fuel as [|fuel IH]; intros node Hn; simpl.
  - apply NoDup_singleton.
  - destruct (parent_id node) as [pk|] eqn:Hp; [|apply NoDup_singleton].
    destruct (get table pk) as [q| |] eqn:Hget; try apply NoDup_singleton.
    apply get_Done in Hget as [Hq <-]. apply NoDup_cons. split; [|by apply IH].
    intros Hin.
    destruct (parent_chain_elem_of fuel q node Hq Hin) as [_ [->|Hd]].
    + apply (Hirr q Hq). by apply descendant_child.
    + apply (Hirr node Hn). by apply (descendant_step _ _ q).
Qed.

Lemma acyclic_iff_no_cycle :
  acyclic table = true ↔
  referential_integrity table = true
  ∧ ∀ row, row ∈ table → ¬ descendant_of table (node_id row) row.
Proof using Hk.
  split.
  - intros Hac.
    assert (well_formed table = true) as Hwf
      by (unfold well_formed; by rewrite Hk, Hac).
    split; [|by apply descendant_of_irrefl].
    unfold referential_integrity. apply forallb_forall. intros row Hrow%list_elem_of_In.
    destruct (parent_id row) as [pk|] eqn:Hp; [|done]. apply bool_decide_eq_true.
    destruct (wf_root_ancestor table Hwf row Hrow) as [root Hroot].
    destruct (length table); simpl in Hroot; rewrite Hp in Hroot; [done|].
    destruct (get table pk) as [q| |] eqn:Hget; [|done..].
    apply get_Done in Hget as [Hq <-]. by apply list_elem_of_fmap_2.
  - intros [Hri Hirr]. unfold acyclic. apply forallb_forall.
    intros row Hrow%list_elem_of_In.
    destruct (root_ancestor (length table) table row) as [root|e|] eqn:Hroot.
    + done.
    + by apply root_ancestor_not_Raised in Hroot.
    + exfalso. apply parent_chain_length in Hroot.
      assert (length (parent_chain (length table) table row) ≤ length table)%nat;
        [|lia].
      apply submseteq_length, NoDup_submseteq; [by apply parent_chain_NoDup|].
      by intros a [? _]%parent_chain_elem_of.
Qed.
End acyclic.

(** ** The recursive table expression *)

Section with_recursive.
Context (table : list RawNode).
Implicit Types (row w : RawNode) (working rows : list RawNode) (fuel d : nat).

(** The rows of the expression are the seed rows and their descendants. *)
Lemma with_recursive_elem_of fuel working rows row :
  with_recursive fuel table working = Done rows →
  row ∈ rows ↔
  row ∈ working ∨ ∃ w, w ∈ working ∧ descendant_of table (node_id w) row.
Proof.
  revert working rows.
  assert (∀ rows, Done [] = Done rows → row ∈ rows ↔
            row ∈ [] ∨ ∃ w, w ∈ @nil RawNode ∧ descendant_of table (node_id w) row)
    as Hnil.
  { intros rows [= <-]. split; [by intros ?%elem_of_nil|].
    intros [?%elem_of_nil|(w & ?%elem_of_nil & _)]; done. }
  induction fuel as [|fuel IH]; intros [|w0 working] rows; simpl;
    try done; try apply Hnil.
  destruct (with_recursive fuel table _) as [rows'| |] eqn:Hrec; simpl; [|done..].
  intros [= <-]. change (w0 :: working ++ rows') with ((w0 :: working) ++ rows').
  rewrite elem_of_app, (IH _ _ Hrec).
  set (W := w0 :: working). apply or_iff_compat_l. split.
  - intros [(w & Hw & Hrow & Hp)%elem_of_join_children
           |(c & (w & Hw & Hc & Hp)%elem_of_join_children & Hd)];
      exists w; (split; [done|]).
    + by apply descendant_child.
    + by apply (descendant_of_below table _ c).
  - intros (w & Hw & [[Hrow Hp]|(c & Hc & Hp & Hd)]%descendant_of_top).
    + left. apply elem_of_join_children. eauto.
    + right. exists c. split; [|done]. apply elem_of_join_children. eauto.
Qed.

Context (Hwf : well_formed table = true).

(** Every round works one level further down, and no row is deeper than
    the table is long: the evaluation ends. *)
Lemma with_recursive_Done fuel working d :
  (∀ w, w ∈ working → w ∈ table ∧ (d ≤ depth table w)%nat) →
  (S (length table) < fuel + d)%nat →
  ∃ rows, with_recursive fuel table working = Done rows.
Proof using Hwf.
  revert working d. induction fuel as [|fuel IH]; intros [|w0 working] d Hall Hlt;
    simpl; eauto.
  - destruct (Hall w0) as [Hw0 Hd]; [left|].
    pose proof (depth_bounds table Hwf w0 Hw0). lia.
  - destruct (IH (join_children table (w0 :: working)) (S d)) as [rows' ->];
      [|lia|simpl; eauto].
    intros c (w & Hw & Hc & Hp)%elem_of_join_children.
    destruct (Hall w Hw) as [Hwt Hd]. split; [done|].
    rewrite (depth_child table Hwf c w) by done. lia.
Qed.

Lemma join_children_NoDup working :
  NoDup working → (∀ w, w ∈ working → w ∈ table) →
  NoDup (join_children table working).
Proof using Hwf.
  pose proof (wf_unique_ids table Hwf) as Hk.
  unfold join_children. induction working as [|w working IH]; intros Hnd Hall.
  - constructor.
  - apply NoDup_cons in Hnd as [Hnotin Hnd]. simpl. apply NoDup_app. split_and!.
    + apply NoDup_filter. by apply unique_ids_NoDup_rows.
    + intros c [Hc Hp]%elem_of_filter_parent_id
        (w' & [_ Hp']%elem_of_filter_parent_id & Hw')%list_elem_of_bind.
      destruct Hnotin. rewrite Hp in Hp'. injection Hp' as Hp'.
      assert (w = w') as ->; [|done].
      apply (unique_ids_inj table); [done| | |done].
      * apply Hall. left.
      * apply Hall. by right.
    + apply IH; [done|]. intros w' Hw'. apply Hall. by right.
Qed.

(** No row is produced twice. *)
Lemma with_recursive_NoDup fuel working d rows :
  NoDup working → (∀ w, w ∈ working → w ∈ table ∧ depth table w = d) →
  with_recursive fuel table working = Done rows →
  NoDup rows ∧ ∀ row, row ∈ rows → row ∈ table ∧ (d ≤ depth table row)%nat.
Proof using Hwf.
  revert working d rows.
  induction fuel as [|fuel IH]; intros [|w0 working] d rows Hnd Hall; simpl;
    try done;
    try (intros [= <-]; split; [constructor|by intros ? ?%elem_of_nil]).
  destruct (with_recursive fuel table _) as [rows'| |] eqn:Hrec; simpl; [|done..].
  intros [= <-]. change (w0 :: working ++ rows') with ((w0 :: working) ++ rows').
  set (W := w0 :: working) in *.
  destruct (IH (join_children table W) (S d) rows') as [Hnd' Hall']; [| |done|].
  { apply join_children_NoDup; [done|]. intros w Hw. by apply Hall. }
  { intros c (w & Hw & Hc & Hp)%elem_of_join_children.
    destruct (Hall w Hw) as [Hwt Hd]. split; [done|].
    by rewrite (depth_child table Hwf c w), Hd by done. }
  split.
  - apply NoDup_app. split_and!; [done| |done].
    intros row Hrow Hrow'. apply Hall in Hrow as [_ Hd].
    apply Hall' in Hrow' as [_ Hd']. lia.
  - intros row [Hrow|Hrow]%elem_of_app.
    + apply Hall in Hrow as [? ->]. by split.
    + apply Hall' in Hrow as [? ?]. split; [done|lia].
Qed.
End with_recursive.

(** ** Ordering *)

Global Instance id_le_total : Total id_le.
Proof. intros a b. unfold id_le. lia. Qed.

Global Instance id_le_trans : Transitive id_le.
Proof. intros a b c. unfold id_le. lia. Qed.

Lemma order_by_id_Permutation rows : order_by_id rows ≡ₚ rows.
Proof. apply merge_sort_Permutation. Qed.

Lemma elem_of_order_by_id rows row : row ∈ order_by_id rows ↔ row ∈ rows.
Proof. by rewrite order_by_id_Permutation. Qed.

Lemma order_by_id_sorted rows : StronglySorted Z.le (node_id <$> order_by_id rows).
Proof.
  apply (StronglySorted_fmap _ id_le); [done|].
  apply StronglySorted_merge_sort; apply _.
Qed.

Lemma StronglySorted_le_lt (ids : list Z) :
  StronglySorted Z.le ids → NoDup ids → StronglySorted Z.lt ids.
Proof.
  induction 1 as [|pk ids Hs IH Hall]; intros Hnd; constructor.
  - apply IH. by apply NoDup_cons in Hnd as [_ ?].
  - apply NoDup_cons in Hnd as [Hnotin _].
    rewrite Forall_forall in Hall. apply Forall_forall. intros pk' Hin.
    assert (pk ≠ pk') by (by intros ->). specialize (Hall pk' Hin). lia.
Qed.

(** ** The traversals on a well-formed population *)

Section resolvers.
Context (table : list RawNode) (Hwf : well_formed table = true).
Context (self : RawNode) (Hself : self ∈ table).
Context (fuel : nat) (Hfuel : (length table < fuel)%nat).
Implicit Types (row : RawNode) (rows : list RawNode).

Lemma NoDup_ids rows :
  NoDup rows → (∀ row, row ∈ rows → row ∈ table) → NoDup (node_id <$> rows).
Proof using Hwf.
  intros Hnd Hall. apply NoDup_fmap_2_strong; [|done].
  intros row row' Hrow Hrow'. apply (unique_ids_inj table); auto.
  by apply wf_unique_ids.
Qed.

(** The descendants expression, seeded with the children of [self]. *)
Lemma descendants_rows :
  ∃ rows,
    with_recursive fuel table (filter_parent_id table (node_id self)) = Done rows
    ∧ NoDup rows
    ∧ (∀ row, row ∈ rows ↔ descendant_of table (node_id self) row)
    ∧ (∀ row, row ∈ rows → row ∈ table ∧ (depth table self < depth table row)%nat).
Proof using Hwf Hself Hfuel.
  set (seed := filter_parent_id table (node_id self)).
  assert (∀ w, w ∈ seed → w ∈ table ∧ depth table w = S (depth table self))
    as Hseed.
  { intros w [Hw Hp]%elem_of_filter_parent_id. split; [done|].
    by apply depth_child. }
  pose proof (depth_bounds table Hwf self Hself) as Hd.
  destruct (with_recursive_Done table Hwf fuel seed (S (depth table self)))
    as [rows Hrows].
  { intros w Hw. destruct (Hseed w Hw) as [? ->]. by split. }
  { lia. }
  exists rows. split; [done|].
  destruct (with_recursive_NoDup table Hwf fuel seed (S (depth table self)) rows)
    as [Hnd Hall]; [|done..|].
  { apply NoDup_filter. apply unique_ids_NoDup_rows. by apply wf_unique_ids. }
  split; [done|]. split.
  - intros row. rewrite (with_recursive_elem_of table fuel seed rows row Hrows).
    rewrite descendant_of_top. unfold seed.
    rewrite elem_of_filter_parent_id. apply or_iff_compat_l. split.
    + intros (w & [Hw Hp]%elem_of_filter_parent_id & Hdesc). eauto.
    + intros (w & Hw & Hp & Hdesc). exists w.
      by rewrite elem_of_filter_parent_id.
  - intros row [? ?]%Hall. split; [done|lia].
Qed.

Lemma root_ancestor_Done :
  ∃ root, root_ancestor fuel table self = Done root
          ∧ true_root table self root ∧ root ∈ table.
Proof using Hwf Hself Hfuel.
  destruct (wf_root_ancestor table Hwf self Hself) as [root Hroot].
  exists root. split.
  - apply (root_ancestor_mono table (length table)); [done|lia].
  - by apply (root_ancestor_true_root table (length table)).
Qed.

Lemma ancestors_Done :
  ∃ path, ancestors fuel table self = Done path
          ∧ (∀ row, row ∈ path ↔ ancestor_or_self table self row).
Proof using Hwf Hself Hfuel.
  destruct (wf_ancestors table Hwf self Hself) as [path Hpath].
  exists path. split.
  - apply (ancestors_mono table (length table)); [done|lia].
  - intros row. by apply (ancestors_elem_of table Hwf (length table)).
Qed.

(** The full-tree expression, seeded with the root row. *)
Lemma full_tree_rows root :
  root ∈ table → parent_id root = None →
  ∃ rows,
    with_recursive fuel table (filter_id table (node_id root)) = Done rows
    ∧ NoDup rows
    ∧ (∀ row, row ∈ rows ↔ row = root ∨ descendant_of table (node_id root) row)
    ∧ (∀ row, row ∈ rows → row ∈ table).
Proof using Hwf Hfuel.
  intros Hroot Hp. pose proof (wf_unique_ids table Hwf) as Hk.
  rewrite filter_id_unique by done.
  assert (∀ w, w ∈ [root] → w ∈ table ∧ depth table w = 1%nat) as Hseed.
  { intros w ->%list_elem_of_singleton. split; [done|]. by apply depth_top. }
  destruct (with_recursive_Done table Hwf fuel [root] 1) as [rows Hrows].
  { intros w Hw. destruct (Hseed w Hw) as [? ->]. by split. }
  { lia. }
  exists rows. split; [done|].
  destruct (with_recursive_NoDup table Hwf fuel [root] 1 rows)
    as [Hnd Hall]; [apply NoDup_singleton|done..|].
  split; [done|]. split.
  - intros row. rewrite (with_recursive_elem_of table fuel [root] rows row Hrows).
    rewrite list_elem_of_singleton. apply or_iff_compat_l. split.
    + by intros (w & ->%list_elem_of_singleton & Hdesc).
    + intros Hdesc. exists root. split; [left|done].
  - by intros row [? _]%Hall.
Qed.
End resolvers.

Lemma build_flat_tree_ids nodes :
  node_id_global <$> build_flat_tree nodes =
    to_global_id "AnnotationType" <$> (node_id <$> nodes).
Proof. rewrite build_flat_tree_unfold, <- !list_fmap_compose. done. Qed.

Lemma build_flat_tree_texts nodes :
  node_raw_text <$> build_flat_tree nodes = raw_text <$> nodes.
Proof. rewrite build_flat_tree_unfold, <- !list_fmap_compose. done. Qed.

Lemma build_flat_tree_length nodes : length (build_flat_tree nodes) = length nodes.
Proof. unfold build_flat_tree. by rewrite length_fmap. Qed.

(** ** A cyclic population

    On [{1: 2, 2: 1}] the upward walk and the recursive expression never
    end: whatever the fuel, the resolvers run out of it. *)

Lemma cyclic_root_ancestor fuel :
  root_ancestor fuel Cyclic.population Cyclic.c1 = OutOfFuel
  ∧ root_ancestor fuel Cyclic.population Cyclic.c2 = OutOfFuel.
Proof.
  induction fuel as [|fuel [IH1 IH2]]; [done|].
  split; simpl; [exact IH2|exact IH1].
Qed.

Lemma cyclic_with_recursive fuel :
  with_recursive fuel Cyclic.population [Cyclic.c1] = OutOfFuel
  ∧ with_recursive fuel Cyclic.population [Cyclic.c2] = OutOfFuel.
Proof.
  induction fuel as [|fuel [IH1 IH2]]; [done|].
  split; simpl.
  - change (join_children Cyclic.population [Cyclic.c1]) with [Cyclic.c2].
    by rewrite IH2.
  - change (join_children Cyclic.population [Cyclic.c2]) with [Cyclic.c1].
    by rewrite IH1.
Qed.

Lemma cyclic_diverges fuel :
  acyclic Cyclic.population = false
  ∧ resolve_descendants_tree fuel Cyclic.population Cyclic.c1 = OutOfFuel
  ∧ resolve_full_tree fuel Cyclic.population Cyclic.c1 = OutOfFuel
  ∧ resolve_subtree fuel Cyclic.population Cyclic.c1 = OutOfFuel.
Proof.
  split; [reflexivity|]. split_and!.
  - unfold resolve_descendants_tree, descendants_list.
    change (filter_parent_id Cyclic.population (node_id Cyclic.c1)) with [Cyclic.c2].
    by rewrite (proj2 (cyclic_with_recursive fuel)).
  - unfold resolve_full_tree, full_tree_list.
    by rewrite (proj1 (cyclic_root_ancestor fuel)).
  - unfold resolve_subtree, subtree_nodes.
    pose proof (proj1 (cyclic_root_ancestor fuel)) as H.
    rewrite ancestors_root_ancestor in H.
    by destruct (ancestors fuel Cyclic.population Cyclic.c1).
Qed.

(** ** The scenarios, evaluated *)

(** Scenario A: [descendants(1)] gives the nodes 2, 3 and 4; node 2 has the
    child 4, the others have none. *)
Example scenario_A_descendants :
  resolve_descendants_tree 2 Scenario.population Scenario.n1
  = Done [ {| node_id_global := Scenario.enc 2; node_raw_text := "two";
              children := [Scenario.enc 4] |};
           {| node_id_global := Scenario.enc 3; node_raw_text := "three";
              children := [] |};
           {| node_id_global := Scenario.enc 4; node_raw_text := "four";
              children := [] |} ].
Proof. vm_compute. reflexivity. Qed.

(** Scenario B: [full_tree(4)] finds the root 1 and gives all four nodes. *)
Example scenario_B_full_tree :
  root_ancestor 2 Scenario.population Scenario.n4 = Done Scenario.n1
  ∧ resolve_full_tree 3 Scenario.population Scenario.n4
    = Done [ {| node_id_global := Scenario.enc 1; node_raw_text := "one";
                children := [Scenario.enc 2; Scenario.enc 3] |};
             {| node_id_global := Scenario.enc 2; node_raw_text := "two";
                children := [Scenario.enc 4] |};
             {| node_id_global := Scenario.enc 3; node_raw_text := "three";
                children := [] |};
             {| node_id_global := Scenario.enc 4; node_raw_text := "four";
                children := [] |} ].
Proof. split; vm_compute; reflexivity. Qed.

(** With too little fuel a resolver does not answer. *)
Example scenario_A_out_of_fuel :
  resolve_descendants_tree 1 Scenario.population Scenario.n1 = OutOfFuel.
Proof. vm_compute. reflexivity. Qed.

(** * The claims *)

(** ** Descendants *)

(** C3: for every node [self] of a well-formed (acyclic) population and
    enough fuel, the descendants resolver returns; the rows it flattens are
    exactly the rows reachable from [self] by following the child relation
    one or more times, and the id of [self] is not among them, neither as an
    internal id nor, encoded, in the flattened list. *)
Theorem descendants_exact table self fuel :
  well_formed table = true → self ∈ table → (length table < fuel)%nat →
  ∃ rows,
    descendants_list fuel table self = Done rows
    ∧ resolve_descendants_tree fuel table self = Done (build_flat_tree rows)
    ∧ (∀ row, row ∈ rows ↔ descendant_of table (node_id self) row)
    ∧ (node_id self ∉ node_id <$> rows)
    ∧ (to_global_id "AnnotationType" (node_id self)
         ∉ node_id_global <$> build_flat_tree rows).
Proof.
  intros Hwf Hself Hfuel.
  destruct (descendants_rows table Hwf self Hself fuel Hfuel)
    as (rows & Hrows & Hnd & Hiff & Hdeep).
  assert (node_id self ∉ node_id <$> order_by_id rows) as Hnotin.
  { intros (row & Heq & Hrow)%list_elem_of_fmap.
    rewrite elem_of_order_by_id in Hrow.
    destruct (Hdeep row Hrow) as [Hrt Hlt].
    rewrite (unique_ids_inj table self row) in Hlt; [lia| |done..].
    by apply wf_unique_ids. }
  exists (order_by_id rows). unfold resolve_descendants_tree, descendants_list.
  rewrite Hrows. split_and!; [done..| |done|].
  - intros row. by rewrite elem_of_order_by_id.
  - rewrite build_flat_tree_ids.
    intros (pk & Heq%(inj _) & Hpk)%list_elem_of_fmap. by subst.
Qed.

Lemma descendants_exact_witness :
  well_formed Scenario.population = true ∧
  ∃ rows,
    descendants_list 5 Scenario.population Scenario.n1 = Done rows
    ∧ resolve_descendants_tree 5 Scenario.population Scenario.n1
      = Done (build_flat_tree rows)
    ∧ (∀ row, row ∈ rows ↔
         descendant_of Scenario.population (node_id Scenario.n1) row)
    ∧ (node_id Scenario.n1 ∉ node_id <$> rows)
    ∧ (to_global_id "AnnotationType" (node_id Scenario.n1)
         ∉ node_id_global <$> build_flat_tree rows).
Proof.
  split; [vm_compute; reflexivity|].
  apply (descendants_exact Scenario.population Scenario.n1 5);
    [vm_compute; reflexivity | repeat constructor | simpl; lia].
Defined.

(** C2 (as the code has it): the descendants resolver raises on no input;
    when the id of [self] is not in the population, and every [parent_id] of
    the population refers to one of its rows, it returns the empty list,
    whatever the fuel. *)
Theorem descendants_of_absent_root table self fuel :
  referential_integrity table = true →
  node_id self ∉ node_id <$> table →
  resolve_descendants_tree fuel table self = Done []
  ∧ ∀ table' self' fuel' e, resolve_descendants_tree fuel' table' self' ≠ Raised e.
Proof.
  intros Hri Habsent. split.
  - unfold resolve_descendants_tree, descendants_list.
    assert (filter_parent_id table (node_id self) = []) as ->.
    { apply elem_of_nil_inv. intros row [Hrow Hp]%elem_of_filter_parent_id.
      unfold referential_integrity in Hri. rewrite forallb_forall in Hri.
      apply list_elem_of_In, Hri in Hrow. rewrite Hp in Hrow.
      by apply bool_decide_eq_true in Hrow. }
    by destruct fuel.
  - intros table' self' fuel' e. unfold resolve_descendants_tree, descendants_list.
    generalize (filter_parent_id table' (node_id self')). clear.
    induction fuel' as [|fuel' IH]; intros [|w working]; simpl; try done.
    specialize (IH (join_children table' (w :: working))).
    by destruct (with_recursive fuel' table' _).
Qed.

Lemma descendants_of_absent_root_witness :
  referential_integrity Scenario.population = true ∧
  resolve_descendants_tree 5 Scenario.population Scenario.n999 = Done [].
Proof.
  split; [vm_compute; reflexivity|].
  apply (descendants_of_absent_root Scenario.population Scenario.n999 5).
  - vm_compute; reflexivity.
  - apply (bool_decide_unpack _). vm_compute. exact I.
Defined.

(** C2 as stated fails: 999 is not an id of the scenario population, and
    the descendants resolver returns the empty list for it, with any fuel,
    instead of raising. *)
Lemma descendants_999_returns_empty :
  (999 ∉ node_id <$> Scenario.population)
  ∧ resolve_descendants_tree 0 Scenario.population Scenario.n999 = Done []
  ∧ ¬ ∃ fuel e,
        resolve_descendants_tree fuel Scenario.population Scenario.n999 = Raised e.
Proof.
  split; [apply (bool_decide_unpack _); vm_compute; exact I|].
  split; [reflexivity|].
  intros (fuel & e & H). by destruct fuel.
Qed.

(** ** Full tree *)

(** C5: for every node [self] of a well-formed (acyclic) population and
    enough fuel, the full-tree resolver first walks [parent] upward from
    [self] to the true root, the ancestor without parent, which is [self]
    itself when [self] has no parent; the rows it then flattens are the true
    root and the rows reachable from it by the child relation.  The true root
    is always among them. *)
Theorem full_tree_from_true_root table self fuel :
  well_formed table = true → self ∈ table → (length table < fuel)%nat →
  ∃ root rows,
    root_ancestor fuel table self = Done root
    ∧ true_root table self root
    ∧ (parent_id self = None → root = self)
    ∧ full_tree_list fuel table self = Done rows
    ∧ resolve_full_tree fuel table self = Done (build_flat_tree rows)
    ∧ (∀ row, row ∈ rows ↔ row = root ∨ descendant_of table (node_id root) row)
    ∧ root ∈ rows.
Proof.
  intros Hwf Hself Hfuel.
  destruct (root_ancestor_Done table Hwf self Hself fuel Hfuel)
    as (root & Hroot & Htrue & Hrt).
  destruct (full_tree_rows table Hwf fuel Hfuel root Hrt (proj2 Htrue))
    as (rows & Hrows & Hnd & Hiff & Hall).
  exists root, (order_by_id rows).
  unfold resolve_full_tree, full_tree_list. rewrite Hroot. simpl. rewrite Hrows.
  assert (∀ row, row ∈ order_by_id rows ↔
                 row = root ∨ descendant_of table (node_id root) row) as Hiff'.
  { intros row. by rewrite elem_of_order_by_id. }
  split_and!; try done.
  - intros Hp. destruct Htrue as [Ha _]. inversion Ha; [done|congruence].
  - apply Hiff'. by left.
Qed.

Lemma full_tree_from_true_root_witness :
  well_formed Scenario.population = true ∧
  ∃ root rows,
    root_ancestor 5 Scenario.population Scenario.n4 = Done root
    ∧ true_root Scenario.population Scenario.n4 root
    ∧ (parent_id Scenario.n4 = None → root = Scenario.n4)
    ∧ full_tree_list 5 Scenario.population Scenario.n4 = Done rows
    ∧ resolve_full_tree 5 Scenario.population Scenario.n4
      = Done (build_flat_tree rows)
    ∧ (∀ row, row ∈ rows ↔
         row = root ∨ descendant_of Scenario.population (node_id root) row)
    ∧ root ∈ rows.
Proof.
  split; [vm_compute; reflexivity|].
  apply (full_tree_from_true_root Scenario.population Scenario.n4 5);
    [vm_compute; reflexivity | repeat constructor | simpl; lia].
Defined.

(** ** Subtree *)

(** C1: for every node [self] of a well-formed (acyclic) population and
    enough fuel, the rows the subtree resolver flattens are exactly the rows
    on the ancestor path of [self] ([self] and the true root included)
    together with the rows reachable from [self] by the child relation
    ([self] is not one of these); every internal id occurs once among
    them. *)
Theorem subtree_is_path_and_descendants table self fuel :
  well_formed table = true → self ∈ table → (length table < fuel)%nat →
  ∃ rows,
    subtree_nodes fuel table self = Done rows
    ∧ resolve_subtree fuel table self = Done (build_flat_tree rows)
    ∧ (∀ row, row ∈ rows ↔
         ancestor_or_self table self row ∨ descendant_of table (node_id self) row)
    ∧ NoDup (node_id <$> rows)
    ∧ self ∈ rows
    ∧ (∃ root, true_root table self root ∧ root ∈ rows)
    ∧ ¬ descendant_of table (node_id self) self.
Proof.
  intros Hwf Hself Hfuel. pose proof (wf_unique_ids table Hwf) as Hk.
  destruct (ancestors_Done table Hwf self Hself fuel Hfuel) as (path & Hpath & Hanc).
  destruct (descendants_rows table Hwf self Hself fuel Hfuel)
    as (desc & Hdesc & Hnd & Hiff & Hdeep).
  destruct (root_ancestor_Done table Hwf self Hself fuel Hfuel)
    as (root & _ & Htrue & Hrt).
  set (rows := filter_id_in table (node_id <$> path) ++ desc).
  assert (∀ row, row ∈ filter_id_in table (node_id <$> path) ↔
                 ancestor_or_self table self row) as Hfilter.
  { intros row. rewrite elem_of_filter_id_in, <- Hanc. split.
    - intros [Hrow (a & Heq & Ha)%list_elem_of_fmap].
      assert (row = a) as ->; [|done].
      apply (unique_ids_inj table); [done..| |done].
      apply (ancestor_or_self_elem_of table self); [done|]. by apply Hanc.
    - intros Hrow. split; [|by apply list_elem_of_fmap_2].
      apply (ancestor_or_self_elem_of table self); [done|]. by apply Hanc. }
  assert (∀ row, row ∈ rows ↔
            ancestor_or_self table self row ∨ descendant_of table (node_id self) row)
    as Hrows.
  { intros row. unfold rows. by rewrite elem_of_app, Hfilter, Hiff. }
  exists rows. unfold resolve_subtree, subtree_nodes. rewrite Hpath. simpl.
  rewrite Hdesc. simpl. fold rows. split_and!; try done.
  - apply (NoDup_ids table Hwf).
    + apply NoDup_app. split_and!; [|  |done].
      * apply NoDup_filter. by apply unique_ids_NoDup_rows.
      * intros row Hrow%Hfilter Hrow'%Hdeep.
        apply (ancestor_or_self_depth table Hwf) in Hrow; [lia|done].
    + intros row [[? _]%elem_of_filter_id_in|[? _]%Hdeep]%elem_of_app; done.
  - apply Hrows. left. constructor.
  - exists root. split; [done|]. apply Hrows. left. by destruct Htrue.
  - by apply descendant_of_irrefl.
Qed.

Lemma subtree_is_path_and_descendants_witness :
  well_formed Scenario.population = true ∧
  ∃ rows,
    subtree_nodes 5 Scenario.population Scenario.n2 = Done rows
    ∧ resolve_subtree 5 Scenario.population Scenario.n2 = Done (build_flat_tree rows)
    ∧ (∀ row, row ∈ rows ↔
         ancestor_or_self Scenario.population Scenario.n2 row
         ∨ descendant_of Scenario.population (node_id Scenario.n2) row)
    ∧ NoDup (node_id <$> rows)
    ∧ Scenario.n2 ∈ rows
    ∧ (∃ root, true_root Scenario.population Scenario.n2 root ∧ root ∈ rows)
    ∧ ¬ descendant_of Scenario.population (node_id Scenario.n2) Scenario.n2.
Proof.
  split; [vm_compute; reflexivity|].
  apply (subtree_is_path_and_descendants Scenario.population Scenario.n2 5);
    [vm_compute; reflexivity | repeat constructor | simpl; lia].
Defined.

(** C8: on the population [{1: null, 2: 1, 3: 1, 4: 2}], in whatever order
    its rows are stored, the subtree of node 2 is made of the nodes 1, 2 and
    4; flattened, node 1 has the children list [[enc 2]] (node 3 is not in
    the result), node 2 has [[enc 4]] and node 4 has none.  One round of each
    loop is enough fuel. *)
Theorem scenario_C_subtree fuel table :
  table ≡ₚ Scenario.population →
  ∃ rows out,
    subtree_nodes (S fuel) table Scenario.n2 = Done rows
    ∧ rows ≡ₚ [Scenario.n1; Scenario.n2; Scenario.n4]
    ∧ resolve_subtree (S fuel) table Scenario.n2 = Done out
    ∧ out ≡ₚ
        [ {| node_id_global := Scenario.enc 1; node_raw_text := "one";
             children := [Scenario.enc 2] |};
          {| node_id_global := Scenario.enc 2; node_raw_text := "two";
             children := [Scenario.enc 4] |};
          {| node_id_global := Scenario.enc 4; node_raw_text := "four";
             children := [] |} ]
    ∧ (table = Scenario.population →
       rows = [Scenario.n1; Scenario.n2; Scenario.n4]).
Proof.
  intros Hperm. symmetry in Hperm. apply permutations_Permutation in Hperm.
  assert (forallb Scenario.scenario_C_holds (permutations Scenario.population) = true)
    as Hall by (vm_compute; reflexivity).
  rewrite forallb_forall in Hall. apply list_elem_of_In, Hall in Hperm.
  unfold Scenario.scenario_C_holds in Hperm.
  destruct (subtree_nodes 1 table Scenario.n2) as [rows| |] eqn:Hrows; [|done..].
  apply andb_prop in Hperm as [Hr%bool_decide_eq_true Ho%bool_decide_eq_true].
  apply (subtree_nodes_mono _ 1 (S fuel)) in Hrows as HS; [|lia].
  exists rows, (build_flat_tree rows). unfold resolve_subtree. rewrite HS.
  split_and!; try done.
  intros ->. vm_compute in Hrows. by injection Hrows as <-.
Qed.

Lemma scenario_C_subtree_witness :
  ∃ rows out,
    subtree_nodes 1 Scenario.population Scenario.n2 = Done rows
    ∧ rows ≡ₚ [Scenario.n1; Scenario.n2; Scenario.n4]
    ∧ resolve_subtree 1 Scenario.population Scenario.n2 = Done out
    ∧ out ≡ₚ
        [ {| node_id_global := Scenario.enc 1; node_raw_text := "one";
             children := [Scenario.enc 2] |};
          {| node_id_global := Scenario.enc 2; node_raw_text := "two";
             children := [Scenario.enc 4] |};
          {| node_id_global := Scenario.enc 4; node_raw_text := "four";
             children := [] |} ]
    ∧ (Scenario.population = Scenario.population →
       rows = [Scenario.n1; Scenario.n2; Scenario.n4]).
Proof. apply (scenario_C_subtree 0 Scenario.population). reflexivity. Defined.

(** ** Ordering of the results *)

(** C7: for every node of a well-formed population and enough fuel, the
    rows the descendants resolver and the full-tree resolver flatten are in
    ascending order of internal id; the flattener emits one record per input
    node, in the order of its input.  The subtree resolver sorts nothing: on
    the shuffled storage order of the scenario its rows are not ascending. *)
Theorem descendants_and_full_tree_ordered table self fuel :
  well_formed table = true → self ∈ table → (length table < fuel)%nat →
  (∃ rows,
     descendants_list fuel table self = Done rows
     ∧ resolve_descendants_tree fuel table self = Done (build_flat_tree rows)
     ∧ StronglySorted Z.lt (node_id <$> rows))
  ∧ (∃ rows,
       full_tree_list fuel table self = Done rows
       ∧ resolve_full_tree fuel table self = Done (build_flat_tree rows)
       ∧ StronglySorted Z.lt (node_id <$> rows))
  ∧ (∀ nodes,
       length (build_flat_tree nodes) = length nodes
       ∧ node_id_global <$> build_flat_tree nodes
         = to_global_id "AnnotationType" <$> (node_id <$> nodes))
  ∧ (∃ rows,
       subtree_nodes 1 Scenario.shuffled Scenario.n2 = Done rows
       ∧ ¬ Sorted Z.le (node_id <$> rows)).
Proof.
  intros Hwf Hself Hfuel. split_and!.
  - destruct (descendants_rows table Hwf self Hself fuel Hfuel)
      as (rows & Hrows & Hnd & _ & Hdeep).
    exists (order_by_id rows). unfold resolve_descendants_tree, descendants_list.
    rewrite Hrows. split_and!; [done..|].
    apply StronglySorted_le_lt; [apply order_by_id_sorted|].
    apply (NoDup_ids table Hwf).
    + by rewrite order_by_id_Permutation.
    + intros row Hrow. rewrite elem_of_order_by_id in Hrow. by apply Hdeep.
  - destruct (root_ancestor_Done table Hwf self Hself fuel Hfuel)
      as (root & Hroot & Htrue & Hrt).
    destruct (full_tree_rows table Hwf fuel Hfuel root Hrt (proj2 Htrue))
      as (rows & Hrows & Hnd & _ & Hall).
    exists (order_by_id rows). unfold resolve_full_tree, full_tree_list.
    rewrite Hroot. simpl. rewrite Hrows. split_and!; [done..|].
    apply StronglySorted_le_lt; [apply order_by_id_sorted|].
    apply (NoDup_ids table Hwf).
    + by rewrite order_by_id_Permutation.
    + intros row Hrow. rewrite elem_of_order_by_id in Hrow. by apply Hall.
  - intros nodes. split; [apply build_flat_tree_length|apply build_flat_tree_ids].
  - exists [Scenario.n2; Scenario.n1; Scenario.n4]. split; [vm_compute; reflexivity|].
    intros Hs. inversion Hs as [|? ? _ Hhd]; subst.
    inversion Hhd as [|? ? Hle]; subst. by compute in Hle.
Qed.

Lemma descendants_and_full_tree_ordered_witness :
  well_formed Scenario.shuffled = true ∧
  (∃ rows,
     descendants_list 5 Scenario.shuffled Scenario.n1 = Done rows
     ∧ resolve_descendants_tree 5 Scenario.shuffled Scenario.n1
       = Done (build_flat_tree rows)
     ∧ StronglySorted Z.lt (node_id <$> rows))
  ∧ (∃ rows,
       full_tree_list 5 Scenario.shuffled Scenario.n1 = Done rows
       ∧ resolve_full_tree 5 Scenario.shuffled Scenario.n1
         = Done (build_flat_tree rows)
       ∧ StronglySorted Z.lt (node_id <$> rows))
  ∧ (∀ nodes,
       length (build_flat_tree nodes) = length nodes
       ∧ node_id_global <$> build_flat_tree nodes
         = to_global_id "AnnotationType" <$> (node_id <$> nodes))
  ∧ (∃ rows,
       subtree_nodes 1 Scenario.shuffled Scenario.n2 = Done rows
       ∧ ¬ Sorted Z.le (node_id <$> rows)).
Proof.
  split; [vm_compute; reflexivity|].
  apply (descendants_and_full_tree_ordered Scenario.shuffled Scenario.n1 5);
    [vm_compute; reflexivity | repeat constructor | simpl; lia].
Defined.

(** ** The flattener *)

(** C4: for every input list [nodes], every node [X] of it (at position
    [i]) and every node [C] whose id is not an id of the input — such as a
    child of [X] in the full population that the query did not return — the
    encoded id of [C] is not in the children list of the record of [X]: that
    list holds the encoded ids of the input nodes whose [parent_id] is the id
    of [X], and nothing else. *)
Theorem children_within_result_set nodes i X C :
  nodes !! i = Some X → node_id C ∉ node_id <$> nodes →
  ∃ out,
    build_flat_tree nodes !! i = Some out
    ∧ (to_global_id "AnnotationType" (node_id C) ∉ children out)
    ∧ children out
      = to_global_id "AnnotationType" <$> children_within nodes (node_id X)
    ∧ ∀ ext, ext ∈ children out →
        ∃ node, node ∈ nodes ∧ ext = to_global_id "AnnotationType" (node_id node)
                ∧ parent_id node = Some (node_id X).
Proof.
  intros HX HC. eexists. split; [by apply build_flat_tree_lookup|]. simpl.
  split_and!; [|done|].
  - intros (pk & Heq%(inj _) & Hpk)%list_elem_of_fmap. subst pk.
    apply elem_of_children_within in Hpk as (node & Hnode & Heq & _).
    destruct HC. rewrite <- Heq. by apply list_elem_of_fmap_2.
  - intros ext (pk & -> & Hpk)%list_elem_of_fmap.
    apply elem_of_children_within in Hpk as (node & Hnode & <- & Hp & _). eauto.
Qed.

Lemma children_within_result_set_witness :
  Scenario.n3 ∈ Scenario.population
  ∧ parent_id Scenario.n3 = Some (node_id Scenario.n1)
  ∧ ∃ out,
      build_flat_tree Scenario.subtree_2 !! 0%nat = Some out
      ∧ (to_global_id "AnnotationType" (node_id Scenario.n3) ∉ children out)
      ∧ children out
        = to_global_id "AnnotationType"
            <$> children_within Scenario.subtree_2 (node_id Scenario.n1)
      ∧ ∀ ext, ext ∈ children out →
          ∃ node, node ∈ Scenario.subtree_2
                  ∧ ext = to_global_id "AnnotationType" (node_id node)
                  ∧ parent_id node = Some (node_id Scenario.n1).
Proof.
  split; [repeat constructor|]. split; [reflexivity|].
  apply (children_within_result_set Scenario.subtree_2 0 Scenario.n1 Scenario.n3).
  - reflexivity.
  - apply (bool_decide_unpack _). vm_compute. exact I.
Defined.

Lemma foldl_record_child_zero nodes (m : gmap Z (list Z)) :
  foldl record_child m nodes !! 0 = m !! 0.
Proof.
  revert m. induction nodes as [|node nodes IH]; intros m; simpl; [done|].
  rewrite IH. unfold record_child. destruct (parent_id node) as [pk|]; [|done].
  destruct (decide (pk = 0)); [done|]. by rewrite lookup_insert_ne.
Qed.

(** C9: [if parent_id:] reads a [parent_id] of 0 like a null one: the
    round of the first loop for such a node leaves the map as it is, and the
    map never gets an entry under the key 0.  So, for every input list, the
    record of a node whose id is 0 has an empty children list, whatever
    nodes of the input name 0 as their parent; and every id in a children
    list comes from an input node whose [parent_id] is not 0. *)
Theorem falsy_parent_id_is_no_parent nodes i zero :
  nodes !! i = Some zero → node_id zero = 0 →
  (∀ m child, parent_id child = Some 0 → record_child m child = m)
  ∧ id_to_children nodes !! 0 = None
  ∧ (∃ out, build_flat_tree nodes !! i = Some out ∧ children out = [])
  ∧ ∀ out ext, out ∈ build_flat_tree nodes → ext ∈ children out →
      ∃ node pk, node ∈ nodes
                 ∧ ext = to_global_id "AnnotationType" (node_id node)
                 ∧ parent_id node = Some pk ∧ pk ≠ 0
                 ∧ node_id_global out = to_global_id "AnnotationType" pk.
Proof.
  intros Hi Hz. split_and!.
  - intros m child Hp. unfold record_child. by rewrite Hp.
  - unfold id_to_children. by rewrite foldl_record_child_zero.
  - eexists. split; [by apply build_flat_tree_lookup|]. simpl.
    by rewrite Hz, children_within_zero.
  - intros out ext. rewrite build_flat_tree_unfold.
    intros (parent & -> & Hparent)%list_elem_of_fmap. simpl.
    intros (pk & -> & Hpk)%list_elem_of_fmap.
    apply elem_of_children_within in Hpk as (node & Hnode & <- & Hp & Hnz).
    exists node, (node_id parent). done.
Qed.

Lemma falsy_parent_id_is_no_parent_witness :
  Falsy.five ∈ Falsy.nodes ∧ parent_id Falsy.five = Some (node_id Falsy.zero) ∧
  (∀ m child, parent_id child = Some 0 → record_child m child = m)
  ∧ id_to_children Falsy.nodes !! 0 = None
  ∧ (∃ out, build_flat_tree Falsy.nodes !! 0%nat = Some out ∧ children out = [])
  ∧ ∀ out ext, out ∈ build_flat_tree Falsy.nodes → ext ∈ children out →
      ∃ node pk, node ∈ Falsy.nodes
                 ∧ ext = to_global_id "AnnotationType" (node_id node)
                 ∧ parent_id node = Some pk ∧ pk ≠ 0
                 ∧ node_id_global out = to_global_id "AnnotationType" pk.
Proof.
  split; [repeat constructor|]. split; [reflexivity|].
  apply (falsy_parent_id_is_no_parent Falsy.nodes 0 Falsy.zero); reflexivity.
Defined.

(** C10 (as the code has it): for every input list the flattener returns
    a list of the same length, with the encoded ids in the order of the
    input and every [raw_text] copied; every node occurs in the output at
    least as often as in the input; and when the [parent_id] of a node is
    not 0 and is the id of the input node at position [k], the encoded id of
    the node occurs at least as often in the children list of the record at
    position [k]. *)
Theorem flattener_keeps_duplicates nodes :
  length (build_flat_tree nodes) = length nodes
  ∧ node_id_global <$> build_flat_tree nodes
    = to_global_id "AnnotationType" <$> (node_id <$> nodes)
  ∧ node_raw_text <$> build_flat_tree nodes = raw_text <$> nodes
  ∧ (∀ node,
       (occurrences node nodes
        ≤ occurrences (node_dict (id_to_children nodes) node)
            (build_flat_tree nodes))%nat)
  ∧ ∀ node parent k,
      nodes !! k = Some parent →
      parent_id node = Some (node_id parent) → node_id parent ≠ 0 →
      ∃ out,
        build_flat_tree nodes !! k = Some out
        ∧ (occurrences node nodes
           ≤ occurrences (to_global_id "AnnotationType" (node_id node))
               (children out))%nat.
Proof.
  split_and!.
  - apply build_flat_tree_length.
  - apply build_flat_tree_ids.
  - apply build_flat_tree_texts.
  - intros node. unfold build_flat_tree. apply occurrences_fmap_le.
  - intros node parent k Hk Hp Hnz.
    eexists. split; [by apply build_flat_tree_lookup|]. simpl.
    unfold children_within.
    rewrite <- (occurrences_filter
                  (λ n, parent_id n = Some (node_id parent) ∧ node_id parent ≠ 0)
                  node nodes) by done.
    etrans; [apply (occurrences_fmap_le node_id)|].
    apply (occurrences_fmap_le (to_global_id "AnnotationType")).
Qed.

Lemma flattener_keeps_duplicates_witness :
  occurrences Scenario.n2 Scenario.twice = 2%nat ∧
  length (build_flat_tree Scenario.twice) = length Scenario.twice
  ∧ node_id_global <$> build_flat_tree Scenario.twice
    = to_global_id "AnnotationType" <$> (node_id <$> Scenario.twice)
  ∧ node_raw_text <$> build_flat_tree Scenario.twice = raw_text <$> Scenario.twice
  ∧ (occurrences Scenario.n2 Scenario.twice
     ≤ occurrences (node_dict (id_to_children Scenario.twice) Scenario.n2)
         (build_flat_tree Scenario.twice))%nat
  ∧ ∃ out,
      build_flat_tree Scenario.twice !! 0%nat = Some out
      ∧ (occurrences Scenario.n2 Scenario.twice
         ≤ occurrences (to_global_id "AnnotationType" (node_id Scenario.n2))
             (children out))%nat.
Proof.
  split; [vm_compute; reflexivity|].
  destruct (flattener_keeps_duplicates Scenario.twice)
    as (Hlen & Hids & Htexts & Hocc & Hchildren).
  split_and!; [exact Hlen | exact Hids | exact Htexts | apply Hocc |].
  apply (Hchildren Scenario.n2 Scenario.n1 0%nat);
    [reflexivity | reflexivity | simpl; lia].
Defined.

(** C10 as stated fails when the parent's id is 0: [five] occurs twice in
    the input and names [zero], the node at position 0, as its parent, but
    the children list of the record of [zero] is empty. *)
Lemma duplicate_child_of_zero_omitted :
  ∃ out,
    Falsy.nodes !! 1%nat = Some Falsy.five
    ∧ Falsy.nodes !! 2%nat = Some Falsy.five
    ∧ Falsy.nodes !! 0%nat = Some Falsy.zero
    ∧ parent_id Falsy.five = Some (node_id Falsy.zero)
    ∧ build_flat_tree Falsy.nodes !! 0%nat = Some out
    ∧ children out = []
    ∧ ¬ (2 ≤ occurrences (to_global_id "AnnotationType" (node_id Falsy.five))
               (children out))%nat.
Proof.
  eexists. split_and!; try reflexivity. vm_compute. lia.
Qed.

(** ** The identifier codec *)

(** C6: for every type tag and internal id, decoding the encoded pair
    gives the pair back, also when the caller expects the tag; for a fixed
    tag, encoding is injective.  (Encoding is a function: the same pair
    always gives the same external id.) *)
Theorem codec_round_trip type_tag internal_id :
  from_global_id (to_global_id type_tag internal_id) = Decoded type_tag internal_id
  ∧ from_global_id_expecting type_tag (to_global_id type_tag internal_id)
    = Decoded type_tag internal_id
  ∧ ∀ internal_id',
      to_global_id type_tag internal_id = to_global_id type_tag internal_id' →
      internal_id = internal_id'.
Proof.
  split_and!.
  - apply from_global_id_to_global_id.
  - unfold from_global_id_expecting.
    by rewrite from_global_id_to_global_id, String.eqb_refl.
  - intros internal_id' Heq. by apply to_global_id_inj in Heq as [_ ?].
Qed.

(** * Further properties of the flattener *)

Lemma record_child_nonempty (m : gmap Z (list Z)) node :
  (∀ pk ids, m !! pk = Some ids → ids ≠ [] ∧ pk ≠ 0) →
  ∀ pk ids, record_child m node !! pk = Some ids → ids ≠ [] ∧ pk ≠ 0.
Proof.
  intros Hm pk ids. unfold record_child.
  destruct (parent_id node) as [p|]; [|apply Hm].
  destruct (decide (p = 0)) as [|Hnz]; [apply Hm|].
  destruct (decide (p = pk)) as [->|Hne].
  - rewrite lookup_insert_eq. intros [= <-]. split; [|done].
    by destruct (default [] (m !! pk)).
  - rewrite lookup_insert_ne by done. apply Hm.
Qed.

Lemma foldl_record_child_nonempty nodes (m : gmap Z (list Z)) :
  (∀ pk ids, m !! pk = Some ids → ids ≠ [] ∧ pk ≠ 0) →
  ∀ pk ids, foldl record_child m nodes !! pk = Some ids → ids ≠ [] ∧ pk ≠ 0.
Proof.
  revert m. induction nodes as [|node nodes IH]; intros m Hm; simpl; [done|].
  apply IH. by apply record_child_nonempty.
Qed.

Lemma NoDup_fmap_inj_on {A B} (f : A → B) (l : list A) x y :
  NoDup (f <$> l) → x ∈ l → y ∈ l → f x = f y → x = y.
Proof.
  induction l as [|z l IH]; simpl; intros Hnd Hx Hy Heq.
  - by apply elem_of_nil in Hx.
  - apply NoDup_cons in Hnd as [Hnotin Hnd].
    apply elem_of_cons in Hx as [->|Hx], Hy as [->|Hy]; [done| | |by apply IH].
    + destruct Hnotin. rewrite Heq. by apply list_elem_of_fmap_2.
    + destruct Hnotin. rewrite <- Heq. by apply list_elem_of_fmap_2.
Qed.

Lemma NoDup_all_equal {A} (l : list A) x :
  NoDup l → x ∈ l → (∀ y, y ∈ l → y = x) → l = [x].
Proof.
  intros Hnd Hx Hall. destruct l as [|y1 [|y2 l]].
  - by apply elem_of_nil in Hx.
  - f_equal. apply Hall. left.
  - apply NoDup_cons in Hnd as [Hnotin _]. destruct Hnotin.
    rewrite (Hall y1), (Hall y2); [left|right; left|left].
Qed.

(** The children list of a record holds the encoded id of exactly the input
    nodes that name the record's node as their parent, provided that id is
    not 0; it is empty exactly when there is no such node. *)
Theorem children_list_iff nodes i X :
  nodes !! i = Some X →
  ∃ out,
    build_flat_tree nodes !! i = Some out
    ∧ (∀ ext, ext ∈ children out ↔
         ∃ node, node ∈ nodes
                 ∧ ext = to_global_id "AnnotationType" (node_id node)
                 ∧ parent_id node = Some (node_id X) ∧ node_id X ≠ 0)
    ∧ (children out = [] ↔
         node_id X = 0 ∨ ∀ node, node ∈ nodes → parent_id node ≠ Some (node_id X)).
Proof.
  intros HX. eexists. split; [by apply build_flat_tree_lookup|]. simpl.
  assert (∀ ext, ext ∈ to_global_id "AnnotationType"
                         <$> children_within nodes (node_id X) ↔
            ∃ node, node ∈ nodes
                    ∧ ext = to_global_id "AnnotationType" (node_id node)
                    ∧ parent_id node = Some (node_id X) ∧ node_id X ≠ 0) as Hiff.
  { intros ext. rewrite list_elem_of_fmap. split.
    - intros (pk & -> & Hpk). apply elem_of_children_within in Hpk
        as (node & Hnode & <- & Hp & Hnz). eauto.
    - intros (node & Hnode & -> & Hp & Hnz). exists (node_id node).
      split; [done|]. apply elem_of_children_within. eauto. }
  split; [done|]. split.
  - intros Hnil. destruct (decide (node_id X = 0)) as [|Hnz]; [by left|right].
    intros node Hnode Hp.
    assert (to_global_id "AnnotationType" (node_id node)
              ∈ to_global_id "AnnotationType" <$> children_within nodes (node_id X))
      as Hin by (apply Hiff; eauto).
    rewrite Hnil in Hin. by apply elem_of_nil in Hin.
  - intros Hno. apply elem_of_nil_inv. intros ext (node & Hnode & _ & Hp & Hnz)%Hiff.
    destruct Hno as [?|Hno]; [done|]. by apply (Hno node).
Qed.

Lemma children_list_iff_witness :
  ∃ out,
    build_flat_tree Scenario.population !! 0%nat = Some out
    ∧ (∀ ext, ext ∈ children out ↔
         ∃ node, node ∈ Scenario.population
                 ∧ ext = to_global_id "AnnotationType" (node_id node)
                 ∧ parent_id node = Some (node_id Scenario.n1)
                 ∧ node_id Scenario.n1 ≠ 0)
    ∧ (children out = [] ↔
         node_id Scenario.n1 = 0
         ∨ ∀ node, node ∈ Scenario.population →
                   parent_id node ≠ Some (node_id Scenario.n1)).
Proof.
  apply (children_list_iff Scenario.population 0 Scenario.n1). reflexivity.
Defined.

(** The map of the first loop never holds an empty list and never has the
    key 0: an entry exists exactly for the non-zero ids some input node names
    as parent, and lists the ids of those nodes in the order of the input. *)
Theorem id_to_children_entries nodes pk :
  match id_to_children nodes !! pk with
  | Some ids =>
      ids ≠ [] ∧ pk ≠ 0
      ∧ ids = node_id <$> filter (λ node, parent_id node = Some pk) nodes
  | None =>
      pk = 0 ∨ ∀ node, node ∈ nodes → parent_id node ≠ Some pk
  end.
Proof.
  pose proof (id_to_children_get nodes pk) as Hget.
  destruct (id_to_children nodes !! pk) as [ids|] eqn:Hl; simpl in Hget.
  - apply (foldl_record_child_nonempty nodes ∅) in Hl as [Hne Hnz];
      [|by intros ? ?; rewrite lookup_empty].
    split_and!; [done..|]. rewrite Hget. unfold children_within. f_equal.
    apply list_filter_iff. tauto.
  - destruct (decide (pk = 0)) as [|Hnz]; [by left|right].
    intros node Hnode Hp.
    assert (node_id node ∈ children_within nodes pk) as Hin
      by (apply elem_of_children_within; eauto).
    rewrite <- Hget in Hin. by apply elem_of_nil in Hin.
Qed.

(** When the ids of the input are pairwise distinct, the output is shaped
    like a forest: no children list names an id twice, and no id is named in
    the children lists of two different records. *)
Theorem distinct_ids_single_listing nodes :
  NoDup (node_id <$> nodes) →
  (∀ out, out ∈ build_flat_tree nodes → NoDup (children out))
  ∧ ∀ i j out_i out_j ext,
      build_flat_tree nodes !! i = Some out_i →
      build_flat_tree nodes !! j = Some out_j →
      ext ∈ children out_i → ext ∈ children out_j → i = j.
Proof.
  intros Hnd. split.
  - intros out. rewrite build_flat_tree_unfold.
    intros (X & -> & HX)%list_elem_of_fmap. simpl.
    apply (NoDup_fmap_2 _). unfold children_within.
    assert (node_id <$> filter (λ node, parent_id node = Some (node_id X)
                                        ∧ node_id X ≠ 0) nodes
            `sublist_of` node_id <$> nodes) as Hsub
      by apply fmap_sublist, sublist_filter.
    by eapply sublist_NoDup.
  - intros i j out_i out_j ext Hi Hj.
    rewrite build_flat_tree_unfold, list_lookup_fmap in Hi, Hj.
    destruct (nodes !! i) as [Xi|] eqn:HXi; [|done].
    destruct (nodes !! j) as [Xj|] eqn:HXj; [|done].
    injection Hi as <-. injection Hj as <-. simpl.
    intros (ci & -> & Hci)%list_elem_of_fmap (cj & Heq%(inj _) & Hcj)%list_elem_of_fmap.
    subst cj.
    apply elem_of_children_within in Hci as (ni & Hni & Heqi & Hpi & _).
    apply elem_of_children_within in Hcj as (nj & Hnj & Heqj & Hpj & _).
    assert (ni = nj) as ->
      by (apply (NoDup_fmap_inj_on node_id nodes); [done..|congruence]).
    rewrite Hpi in Hpj. injection Hpj as Hid.
    eapply NoDup_lookup; [exact Hnd| |].
    + by rewrite list_lookup_fmap, HXi.
    + by rewrite list_lookup_fmap, HXj, Hid.
Qed.

Lemma distinct_ids_single_listing_witness :
  (∀ out, out ∈ build_flat_tree Scenario.population → NoDup (children out))
  ∧ ∀ i j out_i out_j ext,
      build_flat_tree Scenario.population !! i = Some out_i →
      build_flat_tree Scenario.population !! j = Some out_j →
      ext ∈ children out_i → ext ∈ children out_j → i = j.
Proof.
  apply (distinct_ids_single_listing Scenario.population).
  apply (bool_decide_unpack _). vm_compute. exact I.
Defined.

(** * Further properties of the traversals *)

Lemma with_recursive_not_Raised fuel table working e :
  with_recursive fuel table working ≠ Raised e.
Proof.
  revert working. induction fuel as [|fuel IH]; intros [|w working]; simpl; try done.
  specialize (IH (join_children table (w :: working))).
  by destruct (with_recursive fuel table _).
Qed.

Lemma with_recursive_nil_inv fuel table working :
  with_recursive fuel table working = Done [] → working = [].
Proof.
  destruct fuel, working as [|w working]; simpl; try done.
  by destruct (with_recursive fuel table _).
Qed.

Lemma root_ancestor_parent_None fuel table node root :
  root_ancestor fuel table node = Done root → parent_id root = None.
Proof.
  revert node. induction fuel as [|fuel IH]; intros node; simpl.
  - destruct (parent_id node) eqn:Hp; [done|]. by intros [= <-].
  - destruct (parent_id node) as [pk|] eqn:Hp; [|by intros [= <-]].
    destruct (get table pk) as [q| |]; simpl; [apply IH|done..].
Qed.

Lemma get_absent table pk :
  pk ∉ node_id <$> table → get table pk = Raised DoesNotExist.
Proof.
  intros Habsent. destruct (get table pk) as [row|[]|] eqn:Hget; [|done|].
  - apply get_Done in Hget as [Hrow <-]. destruct Habsent.
    by apply list_elem_of_fmap_2.
  - by apply get_not_OutOfFuel in Hget.
Qed.

Lemma descendant_of_trans table top mid row :
  descendant_of table top mid → descendant_of table (node_id mid) row →
  descendant_of table top row.
Proof.
  intros Hmid. induction 1 as [row Hrow Hp|mid' row _ IH Hrow Hp].
  - by apply (descendant_step _ _ mid).
  - by apply (descendant_step _ _ mid').
Qed.

Lemma ancestor_or_self_descendant table node a :
  node ∈ table → ancestor_or_self table node a →
  a = node ∨ descendant_of table (node_id a) node.
Proof.
  intros Hn. induction 1 as [node|node mid a Hmid Hp Ha IH]; [by left|right].
  destruct (IH Hmid) as [->|Hd].
  - by apply descendant_child.
  - by apply (descendant_step _ _ mid).
Qed.

Lemma descendant_ancestor table a row :
  a ∈ table → descendant_of table (node_id a) row → ancestor_or_self table row a.
Proof.
  intros Ha. induction 1 as [row Hrow Hp|mid row Hmid IH Hrow Hp].
  - apply (ancestor_parent _ _ a); [done..|constructor].
  - apply (ancestor_parent _ _ mid); [|done..].
    by apply descendant_of_elem_of in Hmid.
Qed.

Lemma ancestor_or_self_linear table node a b :
  unique_ids table = true →
  ancestor_or_self table node a → ancestor_or_self table node b →
  ancestor_or_self table a b ∨ ancestor_or_self table b a.
Proof.
  intros Hk Ha. revert b. induction Ha as [node|node mid a Hmid Hp Ha IH]; intros b Hb.
  - by left.
  - inversion Hb as [|? mid' ? Hmid' Hp' Hb']; subst.
    + right. by apply (ancestor_parent _ _ mid).
    + rewrite Hp in Hp'. injection Hp' as Hid.
      rewrite <- (unique_ids_inj table mid mid') in Hb' by done. by apply IH.
Qed.

(** The descendants resolver returns the empty list exactly when no row of
    the table names [self] as its parent, and then with any fuel: a node
    without children has no descendants. *)
Theorem descendants_empty_iff table self fuel :
  resolve_descendants_tree fuel table self = Done [] ↔
  ∀ row, row ∈ table → parent_id row ≠ Some (node_id self).
Proof.
  unfold resolve_descendants_tree, descendants_list. split.
  - destruct (with_recursive fuel table _) as [rows| |] eqn:Hrows; [|done..].
    simpl. intros [= Hflat] row Hrow Hp.
    apply (f_equal length) in Hflat. rewrite build_flat_tree_length in Hflat.
    apply nil_length_inv in Hflat.
    assert (rows = []) as -> by (apply Permutation_nil_r; by rewrite <- Hflat,
                                   order_by_id_Permutation).
    apply with_recursive_nil_inv in Hrows.
    assert (row ∈ filter_parent_id table (node_id self)) as Hin
      by (by apply elem_of_filter_parent_id).
    rewrite Hrows in Hin. by apply elem_of_nil in Hin.
  - intros Hno.
    assert (filter_parent_id table (node_id self) = []) as ->.
    { apply elem_of_nil_inv. intros row [Hrow Hp]%elem_of_filter_parent_id.
      by apply (Hno row). }
    by destruct fuel.
Qed.

(** Every node that appears in the full tree of [self] has that same full
    tree: on a well-formed population the full-tree resolver gives one
    answer per tree, whichever of its nodes it is asked on. *)
Theorem full_tree_same_for_every_member table self fuel :
  well_formed table = true → self ∈ table → (length table < fuel)%nat →
  ∃ rows,
    full_tree_list fuel table self = Done rows
    ∧ ∀ member, member ∈ rows →
        full_tree_list fuel table member = Done rows
        ∧ resolve_full_tree fuel table member = resolve_full_tree fuel table self.
Proof.
  intros Hwf Hself Hfuel.
  destruct (root_ancestor_Done table Hwf self Hself fuel Hfuel)
    as (root & Hroot & Htrue & Hrt).
  destruct (full_tree_rows table Hwf fuel Hfuel root Hrt (proj2 Htrue))
    as (rows & Hrows & _ & Hiff & Hall).
  assert (full_tree_list fuel table self = Done (order_by_id rows)) as Hself_rows.
  { unfold full_tree_list. rewrite Hroot. simpl. by rewrite Hrows. }
  exists (order_by_id rows). split; [done|]. intros member Hm.
  rewrite elem_of_order_by_id in Hm. pose proof (Hall member Hm) as Hmt.
  destruct (root_ancestor_Done table Hwf member Hmt fuel Hfuel)
    as (root' & Hroot' & Htrue' & _).
  assert (true_root table member root) as Htrue''.
  { split; [|apply Htrue]. apply Hiff in Hm as [->|Hd]; [constructor|].
    by apply descendant_ancestor. }
  rewrite (true_root_unique table Hwf member root' root Htrue' Htrue'') in Hroot'.
  assert (full_tree_list fuel table member = Done (order_by_id rows)) as Hmember.
  { unfold full_tree_list. rewrite Hroot'. simpl. by rewrite Hrows. }
  split; [done|]. unfold resolve_full_tree. by rewrite Hmember, Hself_rows.
Qed.

Lemma full_tree_same_for_every_member_witness :
  ∃ rows,
    full_tree_list 5 Scenario.population Scenario.n4 = Done rows
    ∧ ∀ member, member ∈ rows →
        full_tree_list 5 Scenario.population member = Done rows
        ∧ resolve_full_tree 5 Scenario.population member
          = resolve_full_tree 5 Scenario.population Scenario.n4.
Proof.
  apply (full_tree_same_for_every_member Scenario.population Scenario.n4 5);
    [vm_compute; reflexivity | repeat constructor | simpl; lia].
Defined.

(** On a node without parent the two modes compose: the rows of its full
    tree are the node itself and the rows of its descendants, and one more
    round of fuel than the descendants needed is enough. *)
Theorem full_tree_of_root table root fuel desc :
  unique_ids table = true → root ∈ table → parent_id root = None →
  descendants_list fuel table root = Done desc →
  ∃ rows, full_tree_list (S fuel) table root = Done rows ∧ rows ≡ₚ root :: desc.
Proof.
  intros Hk Hroot Hp. unfold descendants_list, full_tree_list.
  destruct (with_recursive fuel table _) as [rows| |] eqn:Hrows; [|done..].
  intros [= <-]. simpl. rewrite Hp. simpl.
  rewrite filter_id_unique by done. simpl.
  change (join_children table [root])
    with (filter_parent_id table (node_id root) ++ []).
  rewrite app_nil_r, Hrows. simpl. eexists. split; [done|].
  by rewrite !order_by_id_Permutation.
Qed.

Lemma full_tree_of_root_witness :
  descendants_list 2 Scenario.population Scenario.n1
  = Done [Scenario.n2; Scenario.n3; Scenario.n4]
  ∧ ∃ rows,
      full_tree_list 3 Scenario.population Scenario.n1 = Done rows
      ∧ rows ≡ₚ Scenario.n1 :: [Scenario.n2; Scenario.n3; Scenario.n4].
Proof.
  split; [vm_compute; reflexivity|].
  apply (full_tree_of_root Scenario.population Scenario.n1 2);
    [vm_compute; reflexivity | repeat constructor | reflexivity
    | vm_compute; reflexivity].
Defined.

Lemma StronglySorted_fmap_filter {A B} (R : relation B) (f : A → B)
    (P : A → Prop) `{∀ x, Decision (P x)} (l : list A) :
  StronglySorted R (f <$> l) → StronglySorted R (f <$> filter P l).
Proof.
  induction l as [|x l IH]; simpl; [done|].
  intros Hs. apply StronglySorted_inv in Hs as [Hs Hall].
  rewrite filter_cons. destruct (decide (P x)); [|by apply IH].
  rewrite fmap_cons. constructor; [by apply IH|].
  rewrite Forall_fmap in Hall |- *. rewrite Forall_forall in Hall.
  apply Forall_forall. intros y [_ Hy]%list_elem_of_filter. by apply Hall.
Qed.

(** A result set that is closed under the child relation lists, for each of
    its nodes, all the children the node has in the table. *)
Lemma children_within_complete table rows row :
  unique_ids table = true → NoDup rows → (∀ r, r ∈ rows → r ∈ table) →
  (∀ c, c ∈ table → parent_id c = Some (node_id row) → c ∈ rows) →
  node_id row ≠ 0 →
  children_within rows (node_id row)
  ≡ₚ node_id <$> filter_parent_id table (node_id row).
Proof.
  intros Hk Hnd Hsub Hclosed Hnz. unfold children_within. apply fmap_Permutation.
  apply NoDup_Permutation.
  - by apply NoDup_filter.
  - apply NoDup_filter. by apply unique_ids_NoDup_rows.
  - intros c. rewrite elem_of_filter_parent_id, list_elem_of_filter. split.
    + intros [[Hp _] Hc]. auto.
    + intros [Hc Hp]. auto.
Qed.

Section more_resolvers.
Context (table : list RawNode) (Hwf : well_formed table = true).
Context (self : RawNode) (Hself : self ∈ table).
Context (fuel : nat) (Hfuel : (length table < fuel)%nat).
Implicit Types (row : RawNode) (rows : list RawNode).

(** The rows [resolve_subtree] flattens. *)
Lemma subtree_rows :
  ∃ rows,
    subtree_nodes fuel table self = Done rows
    ∧ NoDup rows
    ∧ (∀ row, row ∈ rows ↔
         ancestor_or_self table self row
         ∨ descendant_of table (node_id self) row)
    ∧ (∀ row, row ∈ rows → row ∈ table).
Proof using Hwf Hself Hfuel.
  pose proof (wf_unique_ids table Hwf) as Hk.
  destruct (ancestors_Done table Hwf self Hself fuel Hfuel) as (path & Hpath & Hanc).
  destruct (descendants_rows table Hwf self Hself fuel Hfuel)
    as (desc & Hdesc & Hnd & Hiff & Hdeep).
  assert (∀ row, row ∈ filter_id_in table (node_id <$> path) ↔
                 ancestor_or_self table self row) as Hfilter.
  { intros row. rewrite elem_of_filter_id_in, <- Hanc. split.
    - intros [Hrow (a & Heq & Ha)%list_elem_of_fmap].
      assert (row = a) as ->; [|done].
      apply (unique_ids_inj table); [done..| |done].
      apply (ancestor_or_self_elem_of table self); [done|]. by apply Hanc.
    - intros Hrow. split; [|by apply list_elem_of_fmap_2].
      apply (ancestor_or_self_elem_of table self); [done|]. by apply Hanc. }
  exists (filter_id_in table (node_id <$> path) ++ desc).
  unfold subtree_nodes. rewrite Hpath. simpl. rewrite Hdesc. simpl.
  split_and!; [done| | |].
  - apply NoDup_app. split_and!; [| |done].
    + apply NoDup_filter. by apply unique_ids_NoDup_rows.
    + intros row Hrow%Hfilter Hrow'%Hdeep.
      apply (ancestor_or_self_depth table Hwf) in Hrow; [lia|done].
  - intros row. by rewrite elem_of_app, Hfilter, Hiff.
  - intros row [[? _]%elem_of_filter_id_in|[? _]%Hdeep]%elem_of_app; done.
Qed.

(** The rows [resolve_descendants_tree] flattens, sorted. *)
Lemma descendants_sorted_rows :
  ∃ rows,
    descendants_list fuel table self = Done rows
    ∧ NoDup rows
    ∧ StronglySorted Z.lt (node_id <$> rows)
    ∧ (∀ row, row ∈ rows ↔ descendant_of table (node_id self) row)
    ∧ (∀ row, row ∈ rows → row ∈ table).
Proof using Hwf Hself Hfuel.
  destruct (descendants_rows table Hwf self Hself fuel Hfuel)
    as (rows & Hrows & Hnd & Hiff & Hdeep).
  assert (∀ row, row ∈ order_by_id rows → row ∈ table) as Hall.
  { intros row Hrow. rewrite elem_of_order_by_id in Hrow. by apply Hdeep. }
  assert (NoDup (order_by_id rows)) as Hnd'
    by (by rewrite order_by_id_Permutation).
  exists (order_by_id rows). unfold descendants_list. rewrite Hrows.
  split_and!; [done..| | |done].
  - apply StronglySorted_le_lt; [apply order_by_id_sorted|].
    by apply (NoDup_ids table Hwf).
  - intros row. by rewrite elem_of_order_by_id.
Qed.

(** The rows [resolve_full_tree] flattens, sorted. *)
Lemma full_tree_sorted_rows :
  ∃ root rows,
    true_root table self root ∧ root ∈ table
    ∧ full_tree_list fuel table self = Done rows
    ∧ NoDup rows
    ∧ StronglySorted Z.lt (node_id <$> rows)
    ∧ (∀ row, row ∈ rows ↔ row = root ∨ descendant_of table (node_id root) row)
    ∧ (∀ row, row ∈ rows → row ∈ table).
Proof using Hwf Hself Hfuel.
  destruct (root_ancestor_Done table Hwf self Hself fuel Hfuel)
    as (root & Hroot & Htrue & Hrt).
  destruct (full_tree_rows table Hwf fuel Hfuel root Hrt (proj2 Htrue))
    as (rows & Hrows & Hnd & Hiff & Hall).
  assert (∀ row, row ∈ order_by_id rows → row ∈ table) as Hall'.
  { intros row Hrow. rewrite elem_of_order_by_id in Hrow. by apply Hall. }
  assert (NoDup (order_by_id rows)) as Hnd'
    by (by rewrite order_by_id_Permutation).
  exists root, (order_by_id rows). unfold full_tree_list. rewrite Hroot. simpl.
  rewrite Hrows. split_and!; [done..| | |done].
  - apply StronglySorted_le_lt; [apply order_by_id_sorted|].
    by apply (NoDup_ids table Hwf).
  - intros row. by rewrite elem_of_order_by_id.
Qed.
End more_resolvers.

(** On a well-formed population the three modes are nested: every row of
    the descendants is a row of the subtree, and every row of the subtree is
    a row of the full tree. *)
Theorem descendants_within_subtree_within_full_tree table self fuel :
  well_formed table = true → self ∈ table → (length table < fuel)%nat →
  ∃ desc sub full,
    descendants_list fuel table self = Done desc
    ∧ subtree_nodes fuel table self = Done sub
    ∧ full_tree_list fuel table self = Done full
    ∧ desc ⊆ sub ∧ sub ⊆ full.
Proof.
  intros Hwf Hself Hfuel. pose proof (wf_unique_ids table Hwf) as Hk.
  destruct (descendants_sorted_rows table Hwf self Hself fuel Hfuel)
    as (desc & Hdesc & _ & _ & Hd & _).
  destruct (subtree_rows table Hwf self Hself fuel Hfuel)
    as (sub & Hsub & _ & Hs & Hst).
  destruct (full_tree_sorted_rows table Hwf self Hself fuel Hfuel)
    as (root & full & [Hanc Hroot] & Hrt & Hfull & _ & _ & Hf & _).
  exists desc, sub, full. split_and!; [done..| |].
  - intros row Hrow%Hd. apply Hs. by right.
  - intros row Hrow. apply Hf.
    assert (root = self ∨ descendant_of table (node_id root) self) as Hself_root
      by (by apply ancestor_or_self_descendant).
    apply Hs in Hrow as [Ha|Hdsc].
    + assert (ancestor_or_self table row root) as Hrow_root.
      { destruct (ancestor_or_self_linear table self row root Hk Ha Hanc)
          as [?|Hup]; [done|].
        inversion Hup; subst; [constructor|congruence]. }
      apply ancestor_or_self_descendant in Hrow_root as [->|?]; [by left|by right|].
      by apply (ancestor_or_self_elem_of table self).
    + right. destruct Hself_root as [->|Hup]; [done|].
      by apply (descendant_of_trans table _ self).
Qed.

Lemma descendants_within_subtree_within_full_tree_witness :
  ∃ desc sub full,
    descendants_list 5 Scenario.population Scenario.n2 = Done desc
    ∧ subtree_nodes 5 Scenario.population Scenario.n2 = Done sub
    ∧ full_tree_list 5 Scenario.population Scenario.n2 = Done full
    ∧ desc ⊆ sub ∧ sub ⊆ full.
Proof.
  apply (descendants_within_subtree_within_full_tree
           Scenario.population Scenario.n2 5);
    [vm_compute; reflexivity | repeat constructor | simpl; lia].
Defined.

Lemma children_complete_in_mode table self fuel :
  well_formed table = true → self ∈ table → (length table < fuel)%nat →
  ∀ mode, mode ∈ [descendants_list; full_tree_list] →
    ∃ rows,
      mode fuel table self = Done rows
      ∧ ∀ i row, rows !! i = Some row → node_id row ≠ 0 →
          ∃ out ids,
            build_flat_tree rows !! i = Some out
            ∧ children out = to_global_id "AnnotationType" <$> ids
            ∧ StronglySorted Z.lt ids
            ∧ ids ≡ₚ node_id <$> filter_parent_id table (node_id row).
Proof.
  intros Hwf Hself Hfuel mode Hmode. pose proof (wf_unique_ids table Hwf) as Hk.
  assert (∃ rows, mode fuel table self = Done rows
            ∧ NoDup rows ∧ StronglySorted Z.lt (node_id <$> rows)
            ∧ (∀ r, r ∈ rows → r ∈ table)
            ∧ ∀ r c, r ∈ rows → c ∈ table → parent_id c = Some (node_id r) →
                     c ∈ rows) as (rows & Hrows & Hnd & Hsorted & Hsub & Hclosed).
  { apply elem_of_cons in Hmode as [->|Hmode];
      [|apply list_elem_of_singleton in Hmode as ->].
    - destruct (descendants_sorted_rows table Hwf self Hself fuel Hfuel)
        as (rows & Hrows & Hnd & Hsorted & Hiff & Hsub).
      exists rows. split_and!; [done..|]. intros r c Hr Hc Hp.
      apply Hiff. apply Hiff in Hr. by apply (descendant_step _ _ r).
    - destruct (full_tree_sorted_rows table Hwf self Hself fuel Hfuel)
        as (root & rows & _ & _ & Hrows & Hnd & Hsorted & Hiff & Hsub).
      exists rows. split_and!; [done..|]. intros r c Hr Hc Hp.
      apply Hiff. right. apply Hiff in Hr as [->|Hr].
      + by apply descendant_child.
      + by apply (descendant_step _ _ r). }
  exists rows. split; [done|]. intros i row Hi Hnz.
  exists (node_dict (id_to_children rows) row), (children_within rows (node_id row)).
  split_and!.
  - unfold build_flat_tree. by rewrite list_lookup_fmap, Hi.
  - simpl. by rewrite id_to_children_get.
  - unfold children_within. by apply StronglySorted_fmap_filter.
  - apply children_within_complete; try done.
    + intros c Hc Hp. apply (Hclosed row c); [|done..].
      by apply list_elem_of_lookup_2 in Hi.
Qed.

(** In the descendants and the full-tree mode the result set is closed under
    the child relation, so the children list of every record (of a node whose
    id is not 0) names all the children the node has in the whole table, in
    ascending order of internal id. *)
Theorem children_complete_in_descendants_and_full_tree table self fuel :
  well_formed table = true → self ∈ table → (length table < fuel)%nat →
  (∃ rows,
     descendants_list fuel table self = Done rows
     ∧ ∀ i row, rows !! i = Some row → node_id row ≠ 0 →
         ∃ out ids,
           build_flat_tree rows !! i = Some out
           ∧ children out = to_global_id "AnnotationType" <$> ids
           ∧ StronglySorted Z.lt ids
           ∧ ids ≡ₚ node_id <$> filter_parent_id table (node_id row))
  ∧ (∃ rows,
       full_tree_list fuel table self = Done rows
       ∧ ∀ i row, rows !! i = Some row → node_id row ≠ 0 →
           ∃ out ids,
             build_flat_tree rows !! i = Some out
             ∧ children out = to_global_id "AnnotationType" <$> ids
             ∧ StronglySorted Z.lt ids
             ∧ ids ≡ₚ node_id <$> filter_parent_id table (node_id row)).
Proof.
  intros Hwf Hself Hfuel. split.
  - apply (children_complete_in_mode table self fuel Hwf Hself Hfuel descendants_list).
    left.
  - apply (children_complete_in_mode table self fuel Hwf Hself Hfuel full_tree_list).
    right. left.
Qed.

Lemma children_complete_in_descendants_and_full_tree_witness :
  (∃ rows,
     descendants_list 5 Scenario.shuffled Scenario.n2 = Done rows
     ∧ ∀ i row, rows !! i = Some row → node_id row ≠ 0 →
         ∃ out ids,
           build_flat_tree rows !! i = Some out
           ∧ children out = to_global_id "AnnotationType" <$> ids
           ∧ StronglySorted Z.lt ids
           ∧ ids ≡ₚ node_id <$> filter_parent_id Scenario.shuffled (node_id row))
  ∧ (∃ rows,
       full_tree_list 5 Scenario.shuffled Scenario.n2 = Done rows
       ∧ ∀ i row, rows !! i = Some row → node_id row ≠ 0 →
           ∃ out ids,
             build_flat_tree rows !! i = Some out
             ∧ children out = to_global_id "AnnotationType" <$> ids
             ∧ StronglySorted Z.lt ids
             ∧ ids ≡ₚ node_id <$> filter_parent_id Scenario.shuffled (node_id row)).
Proof.
  apply (children_complete_in_descendants_and_full_tree
           Scenario.shuffled Scenario.n2 5);
    [vm_compute; reflexivity | repeat constructor | simpl; lia].
Defined.

Lemma ancestor_or_self_last_step table node a :
  ancestor_or_self table node a → a ≠ node →
  ∃ c, ancestor_or_self table node c ∧ parent_id c = Some (node_id a).
Proof.
  induction 1 as [node|node mid a Hmid Hp Ha IH]; [done|]. intros _.
  destruct (decide (a = mid)) as [->|Hne].
  - exists node. split; [constructor|done].
  - destruct (IH Hne) as (c & Hc & Hcp). exists c. split; [|done].
    by apply (ancestor_parent _ _ mid).
Qed.

(** In the subtree mode a proper ancestor of [self] (with an id other than
    0) lists exactly one child, the next node on the way down to [self]: its
    other children are not part of the result. *)
Theorem subtree_ancestor_single_child table self fuel :
  well_formed table = true → self ∈ table → (length table < fuel)%nat →
  ∃ rows,
    subtree_nodes fuel table self = Done rows
    ∧ ∀ i a, rows !! i = Some a →
        ancestor_or_self table self a → a ≠ self → node_id a ≠ 0 →
        ∃ out c,
          build_flat_tree rows !! i = Some out
          ∧ children out = [to_global_id "AnnotationType" (node_id c)]
          ∧ parent_id c = Some (node_id a)
          ∧ ancestor_or_self table self c.
Proof.
  intros Hwf Hself Hfuel. pose proof (wf_unique_ids table Hwf) as Hk.
  destruct (subtree_rows table Hwf self Hself fuel Hfuel)
    as (rows & Hrows & Hnd & Hiff & Hsub).
  exists rows. split; [done|]. intros i a Hi Ha Hne Hnz.
  destruct (ancestor_or_self_last_step table self a Ha Hne) as (c & Hc & Hcp).
  assert (a ∈ table) as Hat by (by apply (ancestor_or_self_elem_of table self)).
  assert (c ∈ table) as Hct by (by apply (ancestor_or_self_elem_of table self)).
  pose proof (depth_child table Hwf c a Hct Hat Hcp) as Hdc.
  pose proof (ancestor_or_self_depth table Hwf self c Hself Hc) as Hdcs.
  exists (node_dict (id_to_children rows) a), c. split_and!; [|simpl|done..].
  { unfold build_flat_tree. by rewrite list_lookup_fmap, Hi. }
  rewrite id_to_children_get. unfold children_within.
  rewrite (NoDup_all_equal
             (filter (λ node, parent_id node = Some (node_id a) ∧ node_id a ≠ 0) rows)
             c); [done|by apply NoDup_filter| |].
  - apply list_elem_of_filter. split; [done|]. apply Hiff. by left.
  - intros x [[Hxp _] Hx]%list_elem_of_filter.
    pose proof (depth_child table Hwf x a (Hsub x Hx) Hat Hxp) as Hdx.
    pose proof Hx as Hx'. apply Hiff in Hx as [Hxa|Hxd].
    + pose proof (Hsub x Hx') as Hxt.
      destruct (ancestor_or_self_linear table self x c Hk Hxa Hc) as [Hup|Hup].
      * destruct (ancestor_or_self_descendant table x c Hxt Hup) as [?|Hd]; [done|].
        apply (descendant_of_depth table Hwf) in Hd; [lia|done].
      * destruct (ancestor_or_self_descendant table c x Hct Hup) as [?|Hd]; [done|].
        apply (descendant_of_depth table Hwf) in Hd; [lia|done].
    + apply (descendant_of_depth table Hwf) in Hxd; [lia|done].
Qed.

Lemma subtree_ancestor_single_child_witness :
  ∃ rows,
    subtree_nodes 5 Scenario.population Scenario.n4 = Done rows
    ∧ ∀ i a, rows !! i = Some a →
        ancestor_or_self Scenario.population Scenario.n4 a →
        a ≠ Scenario.n4 → node_id a ≠ 0 →
        ∃ out c,
          build_flat_tree rows !! i = Some out
          ∧ children out = [to_global_id "AnnotationType" (node_id c)]
          ∧ parent_id c = Some (node_id a)
          ∧ ancestor_or_self Scenario.population Scenario.n4 c.
Proof.
  apply (subtree_ancestor_single_child Scenario.population Scenario.n4 5);
    [vm_compute; reflexivity | repeat constructor | simpl; lia].
Defined.

(** ** Errors and non-termination *)

Lemma fmap_not_Raised {A B} (f : A → B) (o : outcome A) e :
  (∀ e', o ≠ Raised e') → f <$> o ≠ Raised e.
Proof. destruct o as [a|e0|]; simpl; [done| |done]. intros H. by destruct (H e0). Qed.

Lemma descendants_not_Raised fuel table self e :
  resolve_descendants_tree fuel table self ≠ Raised e.
Proof.
  unfold resolve_descendants_tree, descendants_list.
  apply fmap_not_Raised. intros e'. apply fmap_not_Raised. intros e''.
  apply with_recursive_not_Raised.
Qed.

(** In a table with pairwise distinct ids in which every [parent_id] refers
    to a row, following [parent] upward never fails: the full-tree and the
    subtree resolver raise on no node of the table, whatever the fuel, also
    when the parent relation has cycles. *)
Theorem no_resolver_raises table self fuel e :
  unique_ids table = true → referential_integrity table = true → self ∈ table →
  resolve_full_tree fuel table self ≠ Raised e
  ∧ resolve_subtree fuel table self ≠ Raised e.
Proof.
  intros _ Hri Hself.
  pose proof (λ e, root_ancestor_not_Raised table fuel self e Hri Hself) as Hroot.
  split.
  - unfold resolve_full_tree, full_tree_list. apply fmap_not_Raised. intros e'.
    destruct (root_ancestor fuel table self) as [root|e0|]; simpl; [|..|done].
    + apply fmap_not_Raised. intros e''. apply with_recursive_not_Raised.
    + by destruct (Hroot e0).
  - unfold resolve_subtree, subtree_nodes. apply fmap_not_Raised. intros e'.
    rewrite ancestors_root_ancestor in Hroot.
    destruct (ancestors fuel table self) as [path|e0|]; simpl; [|..|done].
    + pose proof (with_recursive_not_Raised fuel table
                    (filter_parent_id table (node_id self))) as Hw.
      destruct (with_recursive fuel table _) as [desc|e1|]; simpl; [done| |done].
      by destruct (Hw e1).
    + by destruct (Hroot e0).
Qed.

Lemma no_resolver_raises_witness :
  resolve_full_tree 1 Cyclic.population Cyclic.c1 ≠ Raised DoesNotExist
  ∧ resolve_subtree 1 Cyclic.population Cyclic.c1 ≠ Raised DoesNotExist.
Proof.
  apply (no_resolver_raises Cyclic.population Cyclic.c1 1 DoesNotExist);
    [vm_compute; reflexivity | vm_compute; reflexivity | repeat constructor].
Defined.

(** When the [parent_id] of [self] refers to no row of the table, following
    [self.parent] raises [DoesNotExist]: the full-tree and the subtree
    resolver raise at their first step, while the descendants resolver,
    which never looks upward, does not. *)
Theorem dangling_parent_raises table self pk fuel :
  parent_id self = Some pk → pk ∉ node_id <$> table →
  resolve_full_tree (S fuel) table self = Raised DoesNotExist
  ∧ resolve_subtree (S fuel) table self = Raised DoesNotExist
  ∧ ∀ e, resolve_descendants_tree (S fuel) table self ≠ Raised e.
Proof.
  intros Hp Habsent. apply get_absent in Habsent. split_and!.
  - unfold resolve_full_tree, full_tree_list. simpl. by rewrite Hp, Habsent.
  - unfold resolve_subtree, subtree_nodes. simpl. by rewrite Hp, Habsent.
  - intros e. apply descendants_not_Raised.
Qed.

Lemma dangling_parent_raises_witness :
  resolve_full_tree 1 [Scenario.n2; Scenario.n4] Scenario.n2 = Raised DoesNotExist
  ∧ resolve_subtree 1 [Scenario.n2; Scenario.n4] Scenario.n2 = Raised DoesNotExist
  ∧ ∀ e, resolve_descendants_tree 1 [Scenario.n2; Scenario.n4] Scenario.n2
         ≠ Raised e.
Proof.
  apply (dangling_parent_raises [Scenario.n2; Scenario.n4] Scenario.n2 1 0).
  - reflexivity.
  - apply (bool_decide_unpack _). vm_compute. exact I.
Defined.

Lemma root_ancestor_descent table a row fuel :
  unique_ids table = true → a ∈ table →
  descendant_of table (node_id a) row →
  root_ancestor fuel table row ≠ OutOfFuel →
  ∃ fuel', (fuel' < fuel)%nat
           ∧ root_ancestor fuel' table a = root_ancestor fuel table row.
Proof.
  intros Hk Ha Hd. revert fuel.
  induction Hd as [row Hrow Hp|mid row Hmid IH Hrow Hp]; intros [|fuel]; simpl;
    rewrite Hp; try done.
  - rewrite get_unique by done. simpl. intros _. exists fuel. split; [lia|done].
  - rewrite get_unique by (done || by apply descendant_of_elem_of in Hmid). simpl.
    intros Hne. destruct (IH fuel Hne) as (fuel' & Hlt & Heq).
    exists fuel'. split; [lia|done].
Qed.

Lemma root_ancestor_on_cycle table a fuel :
  unique_ids table = true → a ∈ table → descendant_of table (node_id a) a →
  root_ancestor fuel table a = OutOfFuel.
Proof.
  intros Hk Ha Hd. induction (lt_wf fuel) as [fuel _ IH].
  destruct (root_ancestor fuel table a) as [root|e|] eqn:Hr; [| |done].
  - destruct (root_ancestor_descent table a a fuel Hk Ha Hd) as (fuel' & Hlt & Heq);
      [by rewrite Hr|]. rewrite (IH fuel' Hlt), Hr in Heq. done.
  - destruct (root_ancestor_descent table a a fuel Hk Ha Hd) as (fuel' & Hlt & Heq);
      [by rewrite Hr|]. rewrite (IH fuel' Hlt), Hr in Heq. done.
Qed.

Lemma with_recursive_reaching_cycle table fuel working :
  (∃ w c, w ∈ working ∧ descendant_of table (node_id w) c
          ∧ descendant_of table (node_id c) c) →
  with_recursive fuel table working = OutOfFuel.
Proof.
  revert working. induction fuel as [|fuel IH]; intros working (w & c & Hw & Hwc & Hcc).
  - destruct working; [by apply elem_of_nil in Hw|done].
  - destruct working as [|w0 working]; [by apply elem_of_nil in Hw|]. simpl.
    rewrite IH; [done|].
    apply descendant_of_top in Hwc as [[Hc Hp]|(x & Hx & Hp & Hxc)].
    + exists c, c. split_and!; [|done..]. apply elem_of_join_children. eauto.
    + exists x, c. split_and!; [|done..]. apply elem_of_join_children. eauto.
Qed.

(** The loops have no guard against cycles: when [self] is its own
    descendant, none of the three resolvers ever returns, whatever the
    fuel. *)
Theorem cycle_never_returns table self fuel :
  unique_ids table = true → self ∈ table →
  descendant_of table (node_id self) self →
  resolve_descendants_tree fuel table self = OutOfFuel
  ∧ resolve_full_tree fuel table self = OutOfFuel
  ∧ resolve_subtree fuel table self = OutOfFuel.
Proof.
  intros Hk Hself Hcycle.
  pose proof (root_ancestor_on_cycle table self fuel Hk Hself Hcycle) as Hroot.
  split_and!.
  - unfold resolve_descendants_tree, descendants_list.
    rewrite with_recursive_reaching_cycle; [done|].
    pose proof Hcycle as Htop.
    apply descendant_of_top in Htop as [[Hc Hp]|(x & Hx & Hp & Hxc)].
    + exists self, self. split_and!; [|done..]. by apply elem_of_filter_parent_id.
    + exists x, self. split_and!; [|done..]. by apply elem_of_filter_parent_id.
  - unfold resolve_full_tree, full_tree_list. by rewrite Hroot.
  - unfold resolve_subtree, subtree_nodes.
    rewrite ancestors_root_ancestor in Hroot.
    by destruct (ancestors fuel table self).
Qed.

Lemma cycle_never_returns_witness :
  resolve_descendants_tree 9 Cyclic.population Cyclic.c1 = OutOfFuel
  ∧ resolve_full_tree 9 Cyclic.population Cyclic.c1 = OutOfFuel
  ∧ resolve_subtree 9 Cyclic.population Cyclic.c1 = OutOfFuel.
Proof.
  apply (cycle_never_returns Cyclic.population Cyclic.c1 9).
  - vm_compute; reflexivity.
  - repeat constructor.
  - apply (descendant_step _ _ Cyclic.c2).
    + apply descendant_child; [repeat constructor|reflexivity].
    + repeat constructor.
    + reflexivity.
Defined.

(** * The filtering resolvers *)

Lemma forall_Some_eq {A} (x : A) (P : A → Prop) :
  (∀ y, Some x = Some y → P y) ↔ P x.
Proof. split; [intros H; by apply H|by intros H y [= <-]]. Qed.

Lemma forall_None_eq {A} (P : A → Prop) :
  (∀ y, @None A = Some y → P y) ↔ True.
Proof. split; [done|by intros _ y]. Qed.

Section filtering.
Import Filtering.
Context (pk_of_global_id : string → option Z).
Implicit Types (a : Annotation) (gid : string).

(** [DocumentType.resolve_all_annotations], when its ids decode: the result
    has no duplicate and holds exactly the annotations of the document that
    belong to the decoded corpus, pass the analysis filter (none without
    [analysis_id]; no analysis for ["__none__"], which is never decoded; the
    decoded analysis otherwise) and pass the structural filter when
    [is_structural] is given. *)
Theorem all_annotations_filters doc_annotations corpus_id analysis_id
    is_structural corpus_pk :
  pk_of_global_id corpus_id = Some corpus_pk →
  (∀ gid, analysis_id = Some gid → gid ≠ "__none__" →
          is_Some (pk_of_global_id gid)) →
  NoDup (resolve_all_annotations pk_of_global_id doc_annotations corpus_id
           analysis_id is_structural)
  ∧ ∀ a,
      a ∈ resolve_all_annotations pk_of_global_id doc_annotations corpus_id
            analysis_id is_structural ↔
      a ∈ doc_annotations
      ∧ ann_corpus_id a = Some corpus_pk
      ∧ (∀ gid, analysis_id = Some gid →
           if decide (gid = "__none__") then ann_analysis_id a = None
           else ann_analysis_id a = pk_of_global_id gid)
      ∧ (∀ flag, is_structural = Some flag → ann_structural a = flag).
Proof.
  intros Hcorpus Hanalysis. unfold resolve_all_annotations. rewrite Hcorpus. simpl.
  destruct analysis_id as [gid|]; simpl;
    [destruct (decide (gid = "__none__")) as [->|Hne]; simpl;
     [|destruct (Hanalysis gid eq_refl Hne) as [analysis_pk Hpk]; rewrite Hpk; simpl]
    |];
    (split; [destruct is_structural; apply NoDup_remove_dups|]);
    intros a; destruct is_structural as [flag|];
    rewrite elem_of_remove_dups, !list_elem_of_filter;
    rewrite ?(forall_Some_eq flag (λ flag, ann_structural a = flag)),
      ?(forall_None_eq (λ flag, ann_structural a = flag)),
      ?(forall_None_eq
          (λ gid, if decide (gid = "__none__") then ann_analysis_id a = None
                  else ann_analysis_id a = pk_of_global_id gid)).
  1,2: rewrite (forall_Some_eq "__none__"
                  (λ gid, if decide (gid = "__none__") then ann_analysis_id a = None
                          else ann_analysis_id a = pk_of_global_id gid));
       rewrite decide_True by done; tauto.
  1,2: rewrite (forall_Some_eq gid
                  (λ gid, if decide (gid = "__none__") then ann_analysis_id a = None
                          else ann_analysis_id a = pk_of_global_id gid));
       rewrite decide_False, Hpk by done; tauto.
  all: tauto.
Qed.


(** An id that does not decode is handled in three ways: the annotations
    of a document become the empty list (be it the corpus id or the analysis
    id), the annotation summaries of a corpus silently drop the analysis
    filter, and the annotation list of an analysis fails. *)
Theorem undecodable_id_policies rows gid :
  pk_of_global_id gid = None → gid ≠ "__none__" →
  (∀ analysis_id is_structural,
     resolve_all_annotations pk_of_global_id rows gid analysis_id is_structural = [])
  ∧ (∀ corpus_id is_structural,
       resolve_all_annotations pk_of_global_id rows corpus_id (Some gid)
         is_structural = [])
  ∧ (∀ label_types,
       resolve_all_annotation_summaries pk_of_global_id rows (Some gid) label_types
       = resolve_all_annotation_summaries pk_of_global_id rows None label_types)
  ∧ resolve_full_annotation_list pk_of_global_id rows (Some gid) = Failed.
Proof.
  intros Hpk Hne. split_and!.
  - intros analysis_id is_structural. unfold resolve_all_annotations.
    by rewrite Hpk.
  - intros corpus_id is_structural. unfold resolve_all_annotations.
    destruct (pk_of_global_id corpus_id); simpl; [|done].
    by rewrite decide_False, Hpk by done.
  - intros label_types. unfold resolve_all_annotation_summaries.
    destruct (decide (gid = "")); [done|]. by rewrite Hpk.
  - unfold resolve_full_annotation_list. by rewrite Hpk.
Qed.
End filtering.

Lemma all_annotations_filters_witness :
  Filtering.resolve_all_annotations Filtering.decoded_pk Filtering.rows
    (to_global_id "CorpusType" 7) (Some (to_global_id "AnalysisType" 5)) (Some false)
  = [Filtering.a2]
  ∧ NoDup (Filtering.resolve_all_annotations Filtering.decoded_pk Filtering.rows
             (to_global_id "CorpusType" 7) (Some (to_global_id "AnalysisType" 5))
             (Some false))
  ∧ ∀ a,
      a ∈ Filtering.resolve_all_annotations Filtering.decoded_pk Filtering.rows
            (to_global_id "CorpusType" 7) (Some (to_global_id "AnalysisType" 5))
            (Some false) ↔
      a ∈ Filtering.rows
      ∧ Filtering.ann_corpus_id a = Some 7
      ∧ (∀ gid, Some (to_global_id "AnalysisType" 5) = Some gid →
           if decide (gid = "__none__") then Filtering.ann_analysis_id a = None
           else Filtering.ann_analysis_id a = Filtering.decoded_pk gid)
      ∧ (∀ flag, Some false = Some flag → Filtering.ann_structural a = flag).
Proof.
  split; [vm_compute; reflexivity|].
  apply (all_annotations_filters Filtering.decoded_pk Filtering.rows
           (to_global_id "CorpusType" 7) (Some (to_global_id "AnalysisType" 5))
           (Some false) 7).
  - vm_compute; reflexivity.
  - intros gid [= <-] _. exists 5. vm_compute; reflexivity.
Defined.

Lemma undecodable_id_policies_witness :
  (∀ analysis_id is_structural,
     Filtering.resolve_all_annotations Filtering.decoded_pk Filtering.rows
       "not-an-id" analysis_id is_structural = [])
  ∧ (∀ corpus_id is_structural,
       Filtering.resolve_all_annotations Filtering.decoded_pk Filtering.rows
         corpus_id (Some "not-an-id") is_structural = [])
  ∧ (∀ label_types,
       Filtering.resolve_all_annotation_summaries Filtering.decoded_pk
         Filtering.rows (Some "not-an-id") label_types
       = Filtering.resolve_all_annotation_summaries Filtering.decoded_pk
           Filtering.rows None label_types)
  ∧ Filtering.resolve_full_annotation_list Filtering.decoded_pk Filtering.rows
      (Some "not-an-id") = Filtering.Failed.
Proof.
  apply (undecodable_id_policies Filtering.decoded_pk Filtering.rows "not-an-id").
  - vm_compute; reflexivity.
  - discriminate.
Defined.

(** * [CorpusAction] *)

(** [CorpusAction.clean] returns without error exactly for the rows that
    satisfy the check constraint of the model and whose keys refer to
    existing rows; the migration adds the same constraint; each of the two
    messages of [clean] names the way the row breaks the constraint; and
    [clean] raises [DoesNotExist] exactly when a key that is set has no
    row. *)
Theorem clean_agrees_with_check_constraint fieldsets analyzers
    (self : CorpusActions.CorpusAction) :
  (CorpusActions.clean fieldsets analyzers self = Done CorpusActions.Valid ↔
   CorpusActions.exactly_one_of_fieldset_or_analyzer self = true
   ∧ CorpusActions.keys_exist fieldsets analyzers self)
  ∧ CorpusActions.migration_0010_constraint self
    = CorpusActions.exactly_one_of_fieldset_or_analyzer self
  ∧ (CorpusActions.clean fieldsets analyzers self
     = Done (CorpusActions.ValidationError
               "Only one of fieldset or analyzer can be set.") ↔
     is_Some (CorpusActions.fieldset_id self)
     ∧ is_Some (CorpusActions.analyzer_id self)
     ∧ CorpusActions.keys_exist fieldsets analyzers self)
  ∧ (CorpusActions.clean fieldsets analyzers self
     = Done (CorpusActions.ValidationError
               "Either fieldset or analyzer must be set.") ↔
     CorpusActions.fieldset_id self = None ∧ CorpusActions.analyzer_id self = None)
  ∧ (CorpusActions.clean fieldsets analyzers self = Raised DoesNotExist ↔
     ¬ CorpusActions.keys_exist fieldsets analyzers self).
Proof.
  unfold CorpusActions.keys_exist, CorpusActions.clean,
    CorpusActions.exactly_one_of_fieldset_or_analyzer,
    CorpusActions.migration_0010_constraint.
  destruct self as [[f|] [a|]]; simpl;
    rewrite ?(forall_Some_eq f (λ pk, pk ∈ fieldsets)),
      ?(forall_Some_eq a (λ pk, pk ∈ analyzers)),
      ?(forall_None_eq (λ pk, pk ∈ fieldsets)),
      ?(forall_None_eq (λ pk, pk ∈ analyzers)), ?is_Some_alt;
    repeat (destruct (decide (_ ∈ _))); simpl;
    (split_and!; [|done|..]); split; intros H; try done; try tauto;
    try discriminate H; try (by destruct H as [[=] _]);
    try (by destruct H as [_ [=]]); try (by destruct H as (_ & _ & ? & ?));
    try (by destruct H as (? & ? & ?)); try (by destruct H as (_ & ? & ?)).
Qed.

(** * Soundness of the descendants on any table *)

(** Whatever the table (ids may repeat, references may dangle), when the
    descendants resolver returns, the rows it flattens are in ascending
    order of id and are exactly the rows reached from [self] through the
    child relation. *)
Theorem descendants_sound_on_any_table table self fuel rows :
  descendants_list fuel table self = Done rows →
  StronglySorted Z.le (node_id <$> rows)
  ∧ resolve_descendants_tree fuel table self = Done (build_flat_tree rows)
  ∧ ∀ row, row ∈ rows ↔ descendant_of table (node_id self) row.
Proof.
  unfold resolve_descendants_tree, descendants_list.
  destruct (with_recursive fuel table _) as [rows0| |] eqn:Hrows; [|done..].
  intros [= <-]. split_and!; [apply order_by_id_sorted|done|].
  intros row. rewrite elem_of_order_by_id.
  rewrite (with_recursive_elem_of table fuel _ rows0 row Hrows).
  rewrite descendant_of_top, elem_of_filter_parent_id. apply or_iff_compat_l. split.
  - intros (w & [Hw Hp]%elem_of_filter_parent_id & Hdesc). eauto.
  - intros (w & Hw & Hp & Hdesc). exists w. by rewrite elem_of_filter_parent_id.
Qed.

Lemma descendants_sound_on_any_table_witness :
  StronglySorted Z.le (node_id <$> [Scenario.n4])
  ∧ resolve_descendants_tree 1 [Scenario.n2; Scenario.n4; Scenario.n2] Scenario.n2
    = Done (build_flat_tree [Scenario.n4])
  ∧ ∀ row, row ∈ [Scenario.n4] ↔
      descendant_of [Scenario.n2; Scenario.n4; Scenario.n2]
        (node_id Scenario.n2) row.
Proof.
  apply (descendants_sound_on_any_table
           [Scenario.n2; Scenario.n4; Scenario.n2] Scenario.n2 1 [Scenario.n4]).
  vm_compute; reflexivity.
Defined.

(** * Termination of the upward walk *)

(** On a table whose ids are pairwise distinct, the loop
    [while root.parent_id is not None: root = root.parent] ends from every
    row, and then within as many steps as the table has rows, exactly when
    every [parent_id] refers to a row of the table and no row is its own
    descendant. *)
Theorem upward_walk_ends_iff_no_cycle table :
  unique_ids table = true →
  (∀ row, row ∈ table →
     ∃ root, root_ancestor (length table) table row = Done root) ↔
  referential_integrity table = true
  ∧ ∀ row, row ∈ table → ¬ descendant_of table (node_id row) row.
Proof.
  intros Hk. rewrite <- (acyclic_iff_no_cycle table Hk). unfold acyclic.
  rewrite forallb_forall. split.
  - intros Hall row Hrow%list_elem_of_In. by destruct (Hall row Hrow) as [root ->].
  - intros Hall row Hrow%list_elem_of_In. specialize (Hall row Hrow).
    destruct (root_ancestor _ table row); [eauto|done..].
Qed.

Lemma upward_walk_ends_iff_no_cycle_witness :
  (∀ row, row ∈ Scenario.population →
     ∃ root, root_ancestor (length Scenario.population) Scenario.population row
             = Done root) ↔
  referential_integrity Scenario.population = true
  ∧ ∀ row, row ∈ Scenario.population →
           ¬ descendant_of Scenario.population (node_id row) row.
Proof.
  apply (upward_walk_ends_iff_no_cycle Scenario.population).
  vm_compute; reflexivity.
Defined.
